(** * The crawl-and-download engine of [download_files.py]

    A shallow embedding of the crawler: the pure helpers (URL scoping,
    filename sanitising, collision-free target paths), the robots parser
    state the crawler consults, and the breadth-first crawl loop as a
    step function on an explicit state with a trace of the network
    operations it issues.

    Conventions.
    - A Python [str] is a [string]; a character is the code point it
      denotes, so the development covers code points 0..255.
    - Python integers are [Z]; the configured delay is a rational [Q].
    - A Python [set] of URLs is a [gset string]; the frontier [deque] is a
      [list] whose head is the left end.
    - The network is an oracle that answers a request from the history of
      operations issued so far, so that a flaky network is covered.
    - Only [requests.RequestException] is modelled as a failure of a
      network call, as it is the only exception the crawl loop catches;
      the crawl's own URL parsing and the file-system calls are taken
      not to raise. The URL parsing inside [can_fetch] may raise, which
      [allowed_by_robots] catches. *)

From Stdlib Require Import ZArith QArith Ascii String List Lia.
From stdpp Require Import base gmap sets list strings pretty sorting.

Local Open Scope Z_scope.
Local Open Scope stdpp_scope.

(** ** Python string operations *)

Module PyStr.

Definition code (c : ascii) : N := N_of_ascii c.

Definition in_range (lo hi : N) (c : ascii) : bool :=
  ((lo <=? code c) && (code c <=? hi))%N.

Fixpoint all_chars (p : ascii → bool) (s : string) : bool :=
  match s with
  | EmptyString => true
  | String c s' => p c && all_chars p s'
  end.

Fixpoint any_char (p : ascii → bool) (s : string) : bool :=
  match s with
  | EmptyString => false
  | String c s' => p c || any_char p s'
  end.

Fixpoint map_chars (f : ascii → ascii) (s : string) : string :=
  match s with
  | EmptyString => EmptyString
  | String c s' => String (f c) (map_chars f s')
  end.

Fixpoint filter_chars (p : ascii → bool) (s : string) : string :=
  match s with
  | EmptyString => EmptyString
  | String c s' => if p c then String c (filter_chars p s') else filter_chars p s'
  end.

(** [c in s] for a one-character [c]. *)
Definition has_char (c : ascii) (s : string) : bool :=
  any_char (Ascii.eqb c) s.

(** [s[:n]] and [s[n:]] for [0 <= n]. *)
Fixpoint str_take (n : nat) (s : string) : string :=
  match n, s with
  | S n', String c s' => String c (str_take n' s')
  | _, _ => EmptyString
  end.

Fixpoint str_drop (n : nat) (s : string) : string :=
  match n, s with
  | S n', String _ s' => str_drop n' s'
  | _, _ => s
  end.

(** [s[i:j]] for [0 <= i], [0 <= j]. *)
Definition str_slice (i j : nat) (s : string) : string :=
  str_take (j - i) (str_drop i s).

(** [s.startswith(p)] *)
Fixpoint startswith (s p : string) {struct p} : bool :=
  match p, s with
  | EmptyString, _ => true
  | String a p', String b s' => Ascii.eqb a b && startswith s' p'
  | String _ _, EmptyString => false
  end.

(** [s.endswith(p)] *)
Definition endswith (s p : string) : bool :=
  (String.length p <=? String.length s)%nat &&
  String.eqb (str_drop (String.length s - String.length p) s) p.

(** [sub in s] *)
Fixpoint contains (s sub : string) : bool :=
  startswith s sub ||
  match s with
  | EmptyString => false
  | String _ s' => contains s' sub
  end.

(** [s.find(c)]: the first index of [c], or [-1]. *)
Fixpoint str_find (c : ascii) (s : string) : Z :=
  match s with
  | EmptyString => -1
  | String d s' =>
      if Ascii.eqb c d then 0
      else let r := str_find c s' in if r <? 0 then -1 else r + 1
  end.

(** [s.find(c, start)] for [0 <= start]. *)
Definition str_find_from (c : ascii) (start : nat) (s : string) : Z :=
  if (String.length s <? start)%nat then -1
  else let r := str_find c (str_drop start s) in
       if r <? 0 then -1 else r + Z.of_nat start.

(** [s.rfind(c)]: the last index of [c], or [-1]. *)
Fixpoint str_rfind (c : ascii) (s : string) : Z :=
  match s with
  | EmptyString => -1
  | String d s' =>
      let r := str_rfind c s' in
      if 0 <=? r then r + 1
      else if Ascii.eqb c d then 0 else -1
  end.

(** [s.split(c, 1)] when [c in s]: the parts around the first [c]. *)
Definition split_first (c : ascii) (s : string) : string * string :=
  let i := Z.to_nat (str_find c s) in (str_take i s, str_drop (S i) s).

(** [s.lstrip(chars)] with the characters given as a predicate. *)
Fixpoint lstrip (p : ascii → bool) (s : string) : string :=
  match s with
  | EmptyString => EmptyString
  | String c s' => if p c then lstrip p s' else s
  end.

Definition is_upper_ascii : ascii → bool := in_range 65 90.
Definition is_alpha_ascii (c : ascii) : bool :=
  in_range 65 90 c || in_range 97 122 c.
Definition is_digit_ascii : ascii → bool := in_range 48 57.

(** [c.lower()]: A-Z, and in the Latin-1 block U+00C0..U+00DE without
    the multiplication sign U+00D7. *)
Definition lower_char (c : ascii) : ascii :=
  if is_upper_ascii c
     || (in_range 192 222 c && negb (code c =? 215)%N)
  then ascii_of_N (code c + 32) else c.

Definition lower : string → string := map_chars lower_char.

End PyStr.

(** ** [urllib.parse.urlparse]

    The library function, as the crawler uses it: only the text input
    path, without the [ValueError] the library raises for a netloc with
    unbalanced brackets or one that changes under NFKC normalisation. *)

Module UrlParse.
Import PyStr.

Record ParseResult := mkParseResult {
  scheme : string;
  netloc : string;
  path : string;
  params : string;
  query : string;
  fragment : string
}.

Definition uses_params : list string :=
  [""; "ftp"; "hdl"; "prospero"; "http"; "imap"; "https"; "shttp";
   "rtsp"; "rtspu"; "sip"; "sips"; "mms"; "sftp"; "tel"].

Definition scheme_char (c : ascii) : bool :=
  is_alpha_ascii c || is_digit_ascii c || has_char c "+-.".

(** [_WHATWG_C0_CONTROL_OR_SPACE] *)
Definition c0_control_or_space : ascii → bool := in_range 0 32.

(** [_UNSAFE_URL_BYTES_TO_REMOVE] *)
Definition unsafe_url_byte (c : ascii) : bool :=
  (code c =? 9)%N || (code c =? 13)%N || (code c =? 10)%N.

Definition min_delim (c : ascii) (start : nat) (url : string) (delim : Z) : Z :=
  let wdelim := str_find_from c start url in
  if 0 <=? wdelim then Z.min delim wdelim else delim.

Definition _splitnetloc (url : string) (start : nat) : string * string :=
  let delim := Z.of_nat (String.length url) in
  let delim := min_delim "/" start url delim in
  let delim := min_delim "?" start url delim in
  let delim := min_delim "#" start url delim in
  (str_slice start (Z.to_nat delim) url, str_drop (Z.to_nat delim) url).

Definition split_scheme (url : string) : string * string :=
  let i := str_find ":" url in
  match url with
  | String c0 _ =>
      if (0 <? i) && is_alpha_ascii c0
         && all_chars scheme_char (str_take (Z.to_nat i) url)
      then (lower (str_take (Z.to_nat i) url), str_drop (S (Z.to_nat i)) url)
      else ("", url)
  | EmptyString => ("", url)
  end.

Definition urlsplit (url : string)
  : string * string * string * string * string :=
  let url := lstrip c0_control_or_space url in
  let url := filter_chars (λ c, negb (unsafe_url_byte c)) url in
  let '(scheme, url) := split_scheme url in
  let '(netloc, url) :=
    if String.eqb (str_take 2 url) "//" then _splitnetloc url 2 else ("", url) in
  let '(url, fragment) :=
    if has_char "#" url then split_first "#" url else (url, "") in
  let '(url, query) :=
    if has_char "?" url then split_first "?" url else (url, "") in
  (scheme, netloc, url, query, fragment).

Definition _splitparams (url : string) : string * string :=
  if has_char "/" url then
    let i := str_find_from ";" (Z.to_nat (str_rfind "/" url)) url in
    if i <? 0 then (url, "")
    else (str_take (Z.to_nat i) url, str_drop (S (Z.to_nat i)) url)
  else
    let i := str_find ";" url in
    (str_take (Z.to_nat i) url, str_drop (S (Z.to_nat i)) url).

Definition urlparse (url : string) : ParseResult :=
  let '(scheme, netloc, url, query, fragment) := urlsplit url in
  let '(url, params) :=
    if bool_decide (scheme ∈ uses_params) && has_char ";" url
    then _splitparams url else (url, "") in
  mkParseResult scheme netloc url params query fragment.

End UrlParse.

(** ** Scope policy: [is_same_site], [is_under_base_path], [looks_like_pdf] *)

Import PyStr UrlParse.

Definition is_same_site (url base : string) : bool :=
  String.eqb (netloc (urlparse url)) (netloc (urlparse base)).

Definition is_under_base_path (url base : string) : bool :=
  let up := urlparse url in
  let bp := urlparse base in
  String.eqb (netloc up) (netloc bp) && startswith (path up) (path bp).

Definition looks_like_pdf (url : string) : bool :=
  let path := lower (path (urlparse url)) in
  endswith path ".pdf".

(** ** Filenames: [sanitize_filename] and the [os.path] helpers *)

(** The regular-expression classes [\w] and [\s] on text patterns. *)
Definition re_word (c : ascii) : bool :=
  in_range 48 57 c || in_range 65 90 c || (code c =? 95)%N
  || in_range 97 122 c
  || (code c =? 170)%N || in_range 178 179 c || (code c =? 181)%N
  || in_range 185 186 c || in_range 188 190 c
  || in_range 192 214 c || in_range 216 246 c || in_range 248 255 c.

Definition re_space (c : ascii) : bool :=
  in_range 9 13 c || in_range 28 32 c
  || (code c =? 133)%N || (code c =? 160)%N.

(** The characters the class [[^\w\-.()+\s]] does not match. *)
Definition kept_char (c : ascii) : bool :=
  re_word c || has_char c "-.()+" || re_space c.

Definition sanitize_filename (name : string) : string :=
  let name := map_chars (λ c, if kept_char c then c else "_"%char) name in
  if (180 <? String.length name)%nat
  then str_drop (String.length name - 180) name
  else name.

Module OsPath.

(** [posixpath.basename] *)
Definition basename (p : string) : string :=
  let i := str_rfind "/" p + 1 in
  str_drop (Z.to_nat i) p.

(** [posixpath.join] of two components *)
Definition join (a b : string) : string :=
  if startswith b "/" then b
  else if String.eqb a "" || endswith a "/" then a +:+ b
  else a +:+ "/" +:+ b.

(** [posixpath.splitext]: the extension starts at the last dot of the
    last component, unless only dots precede it there. *)
Definition splitext (p : string) : string * string :=
  let sepIndex := str_rfind "/" p in
  let dotIndex := str_rfind "." p in
  if (sepIndex <? dotIndex)
     && any_char (λ c, negb (Ascii.eqb c "."))
          (str_slice (Z.to_nat (sepIndex + 1)) (Z.to_nat dotIndex) p)
  then (str_take (Z.to_nat dotIndex) p, str_drop (Z.to_nat dotIndex) p)
  else (p, "").

End OsPath.

(** ** [ensure_unique_path]

    [os.path.exists] is a predicate on paths. The [while True] loop runs
    on fuel: [None] means the fuel ran out before a free name was met. *)

Definition candidate (base ext : string) (i : Z) : string :=
  base +:+ " (" +:+ pretty i +:+ ")" +:+ ext.

Fixpoint ensure_unique_loop (fuel : nat) (exists_ : string → bool)
    (base ext : string) (i : Z) : option string :=
  match fuel with
  | O => None
  | S fuel' =>
      let cand := candidate base ext i in
      if negb (exists_ cand) then Some cand
      else ensure_unique_loop fuel' exists_ base ext (i + 1)
  end.

Definition ensure_unique_path (fuel : nat) (exists_ : string → bool)
    (path : string) : option string :=
  if negb (exists_ path) then Some path
  else
    let '(base, ext) := OsPath.splitext path in
    ensure_unique_loop fuel exists_ base ext 1.

(** ** [download_pdf]

    The file system is the finite set of paths that exist. The directory
    holds finitely many files, so [S (size fs)] rounds of the loop are
    enough ([ensure_unique_path_fs_total] below); the fallback to [target]
    is never taken. *)

Definition path_exists (fs : gset string) (p : string) : bool :=
  bool_decide (p ∈ fs).

Definition ensure_unique_path_fs (fs : gset string) (path : string) : string :=
  default path (ensure_unique_path (S (size fs)) (path_exists fs) path).

(** What the streamed GET of [download_pdf] does. *)
Inductive get_outcome :=
| Saved            (* the body was written in full *)
| FailedEarly      (* RequestException before the file was opened *)
| FailedMidStream. (* RequestException while streaming: partial file left *)

(** Lines 144-147: the path the download would use in an empty directory. *)
Definition download_name (url out_dir : string) : string :=
  let path := path (urlparse url) in
  let fname := OsPath.basename path in
  let fname := if String.eqb fname "" then "document.pdf" else fname in
  let fname := sanitize_filename fname in
  OsPath.join out_dir fname.

Definition download_target (fs : gset string) (url out_dir : string) : string :=
  let target := download_name url out_dir in
  ensure_unique_path_fs fs target.

(** Returns the new file system and whether the call returned normally
    ([false]: it raised [RequestException]). *)
Definition download_pdf (fs : gset string) (url out_dir : string)
    (r : get_outcome) : gset string * bool :=
  let target := download_target fs url out_dir in
  match r with
  | Saved => ({[target]} ∪ fs, true)
  | FailedEarly => (fs, false)
  | FailedMidStream => ({[target]} ∪ fs, false)
  end.

(** ** The robots parser: [load_robots], [allowed_by_robots],
       [robots_crawl_delay]

    [urllib.robotparser.RobotFileParser] keeps two flags, the time of the
    last successful read and the parsed entries. The flags and the time
    are modelled as the library has them; what the parsed entries decide
    for an agent and a URL is kept as one function of the record. That
    last part of [can_fetch] unquotes and parses the URL before it looks
    at the entries, and the parse raises [ValueError] on some URLs: the
    function answers [None] there. *)

Definition USER_AGENT : string :=
  "Mozilla/5.0 (X11; Linux x86_64) AppleWebKit/537.36 (KHTML, like Gecko) Chrome/125.0 Safari/537.36 (+https://github.com/)".

Module Robots.

Record RobotFileParser := mkParser {
  disallow_all : bool;
  allow_all : bool;
  last_checked : Q;
  (* the verdict of the entries for (useragent, url); None: parsing the
     URL raises *)
  entries_allow : string → string → option bool;
  (* the Crawl-delay of the entry that applies to the agent *)
  entries_delay : string → option Z
}.

(** [RobotFileParser()] *)
Definition fresh : RobotFileParser :=
  mkParser false false 0 (λ _ _, Some true) (λ _, None).

(** What [rp.read()] met. *)
Inductive read_result :=
(* urlopen answered and [parse] ran to its end at time [now] *)
| Parsed (now : Q) (allow : string → string → option bool)
         (delay : string → option Z)
(* [parse] raised after [modified()], with the entries added so far *)
| ParseRaised (now : Q) (allow : string → string → option bool)
              (delay : string → option Z)
(* urlopen raised [HTTPError], which [read] handles itself *)
| HTTPError (code : Z)
(* urlopen or the decoding raised anything else: [read] lets it through *)
| Raised.

(** The state [read] leaves, and whether it raised. *)
Definition read (rp : RobotFileParser) (r : read_result)
  : RobotFileParser * bool :=
  match r with
  | Parsed now allow delay =>
      (mkParser (disallow_all rp) (allow_all rp) now allow delay, false)
  | ParseRaised now allow delay =>
      (mkParser (disallow_all rp) (allow_all rp) now allow delay, true)
  | HTTPError code =>
      if bool_decide (code = 401) || bool_decide (code = 403) then
        (mkParser true (allow_all rp) (last_checked rp)
           (entries_allow rp) (entries_delay rp), false)
      else if (400 <=? code) && (code <? 500) then
        (mkParser (disallow_all rp) true (last_checked rp)
           (entries_allow rp) (entries_delay rp), false)
      else (rp, false)
  | Raised => (rp, true)
  end.

(** [None]: the call raises. The flags and the time are tested before
    the URL is looked at. *)
Definition can_fetch (rp : RobotFileParser) (useragent url : string)
  : option bool :=
  if disallow_all rp then Some false
  else if allow_all rp then Some true
  else if Qeq_bool (last_checked rp) 0 then Some false
  else entries_allow rp useragent url.

(** [crawl_delay] looks at no URL; [None] is Python's [None]. *)

Definition crawl_delay (rp : RobotFileParser) (useragent : string)
  : option Z :=
  if Qeq_bool (last_checked rp) 0 then None
  else entries_delay rp useragent.

End Robots.

Import Robots.

(** [load_robots]: the [try] swallows whatever [read] raises. *)
Definition load_robots (r : read_result) : RobotFileParser :=
  let rp := fresh in
  fst (read rp r).

(** Lines 65-69: a URL on which [can_fetch] raises is allowed. *)
Definition allowed_by_robots (rp : RobotFileParser) (url : string) : bool :=
  match can_fetch rp USER_AGENT url with
  | Some verdict => verdict
  | None => true
  end.

(** [crawl_delay] does not raise on the parser states above, so the
    [except] of lines 75-76 is not entered. *)

Definition robots_crawl_delay (rp : RobotFileParser) : Z :=
  match crawl_delay rp USER_AGENT with
  | Some cd => cd
  | None => 0
  end.

(** Python's [max(a, b)]: [b] only when it is strictly larger. *)
Definition py_max (a b : Q) : Q :=
  if Qle_bool b a then a else b.

(** ** The crawl scheduler: [crawl_and_download] *)

(** The operations the crawl issues, as they appear in the trace. *)
Inductive event :=
| Dequeue (url : string) (depth : Z)  (* queued.popleft() *)
| GetPage (url : string)              (* the GET of fetch_html *)
| HeadProbe (url : string)            (* the HEAD of head_is_pdf *)
| GetFile (url : string)              (* the GET of download_pdf *)
| Sleep (d : Q).                      (* time.sleep(enforced_delay) *)

(** The network. Each answer may depend on the trace so far (newest
    event first).
    - [page_links]: [fetch_html] followed by [extract_links]; [None] when
      the GET raises [RequestException]. The links are the elements of the
      Python set in the order the [for] loop meets them.
    - [head_pdf]: the value of [head_is_pdf].
    - [get_file]: what the streamed GET of [download_pdf] does. *)
Record World := mkWorld {
  page_links : list event → string → option (list string);
  head_pdf : list event → string → bool;
  get_file : list event → string → get_outcome
}.

Record Config := mkConfig {
  start_url : string;
  out_dir : string;
  max_depth : Z;
  delay : Q;
  same_path_only : bool
}.

Record State := mkState {
  seen_pages : gset string;
  queued : list (string * Z);
  found_pdfs : gset string;
  downloaded : Z;
  checked_links : Z;
  files : gset string;
  trace : list event
}.

(** Updates of one field of the state. *)
Definition log (e : event) (st : State) : State :=
  mkState (seen_pages st) (queued st) (found_pdfs st) (downloaded st)
    (checked_links st) (files st) (e :: trace st).

Definition set_queued (q : list (string * Z)) (st : State) : State :=
  mkState (seen_pages st) q (found_pdfs st) (downloaded st)
    (checked_links st) (files st) (trace st).

Definition add_seen (url : string) (st : State) : State :=
  mkState ({[url]} ∪ seen_pages st) (queued st) (found_pdfs st)
    (downloaded st) (checked_links st) (files st) (trace st).

Definition add_found (link : string) (st : State) : State :=
  mkState (seen_pages st) (queued st) ({[link]} ∪ found_pdfs st)
    (downloaded st) (checked_links st) (files st) (trace st).

Definition set_files (fs : gset string) (st : State) : State :=
  mkState (seen_pages st) (queued st) (found_pdfs st) (downloaded st)
    (checked_links st) fs (trace st).

Definition count_download (st : State) : State :=
  mkState (seen_pages st) (queued st) (found_pdfs st) (downloaded st + 1)
    (checked_links st) (files st) (trace st).

Definition count_link (st : State) : State :=
  mkState (seen_pages st) (queued st) (found_pdfs st) (downloaded st)
    (checked_links st + 1) (files st) (trace st).

Section Crawl.

Variable W : World.
Variable rp : RobotFileParser.
Variable cfg : Config.

Definition enforced_delay : Q :=
  py_max (delay cfg) (inject_Z (robots_crawl_delay rp)).

Definition in_scope (url : string) : bool :=
  is_same_site url (start_url cfg)
  && (negb (same_path_only cfg) || is_under_base_path url (start_url cfg)).

(** Lines 211-218: the link is a PDF candidate the policy allows. *)
Definition found_pdf (st : State) (link : string) : State :=
  if bool_decide (link ∈ found_pdfs st) then st
  else
    let st := add_found link st in
    let r := get_file W (trace st) link in
    let '(fs, ok) := download_pdf (files st) link (out_dir cfg) r in
    let st := set_files fs (log (GetFile link) st) in
    if ok then log (Sleep enforced_delay) (count_download st)
    else st.

(** Lines 221-225: the link is not a PDF candidate. *)
Definition enqueue_page (depth : Z) (st : State) (link : string) : State :=
  if depth <? max_depth cfg then
    if is_same_site link (start_url cfg)
       && (negb (same_path_only cfg)
           || is_under_base_path link (start_url cfg)) then
      if bool_decide (link ∈ seen_pages st) then st
      else set_queued (queued st ++ [(link, depth + 1)]) st
    else st
  else st.

(** The body of [for link in links]. The [or] of line 207 probes only
    when the extension test fails. *)
Definition visit_link (depth : Z) (st : State) (link : string) : State :=
  let st := count_link st in
  if looks_like_pdf link then
    if negb (allowed_by_robots rp link) then st
    else found_pdf st link
  else
    let is_pdf := head_pdf W (trace st) link in
    let st := log (HeadProbe link) st in
    if is_pdf then
      if negb (allowed_by_robots rp link) then st
      else found_pdf st link
    else enqueue_page depth st link.

Definition visit_links (depth : Z) (st : State) (links : list string) : State :=
  fold_left (visit_link depth) links st.

(** Lines 194-202, once the page passed the checks. *)
Definition visit_page (url : string) (depth : Z) (st : State) : State :=
  match page_links W (trace st) url with
  | None => log (GetPage url) st
  | Some links =>
      let st := log (Sleep enforced_delay) (log (GetPage url) st) in
      visit_links depth st links
  end.


(** One iteration of [while queued]. *)
Definition step (st : State) : State :=
  match queued st with
  | [] => st
  | (url, depth) :: rest =>
      let st := log (Dequeue url depth) (set_queued rest st) in
      if bool_decide (url ∈ seen_pages st) then st
      else
        let st := add_seen url st in
        if negb (is_same_site url (start_url cfg)) then st
        else if same_path_only cfg
                && negb (is_under_base_path url (start_url cfg)) then st
        else if negb (allowed_by_robots rp url) then st
        else visit_page url depth st
  end.


Definition init (fs : gset string) : State :=
  mkState ∅ [(start_url cfg, 0)] ∅ 0 0 fs [].

(** The state after [n] iterations (or at the end, if that is sooner). *)
Fixpoint iterate (n : nat) (st : State) : State :=
  match n with
  | O => st
  | S n' => iterate n' (step st)
  end.

(** The [while] loop on fuel: [None] when the fuel runs out first. *)
Fixpoint crawl_loop (fuel : nat) (st : State) : option State :=
  match queued st with
  | [] => Some st
  | _ :: _ =>
      match fuel with
      | O => None
      | S fuel' => crawl_loop fuel' (step st)
      end
  end.

Definition crawl_and_download (fuel : nat) (fs : gset string)
  : option State :=
  crawl_loop fuel (init fs).

End Crawl.

(** The summary lines printed at the end. *)
Record Summary := mkSummary {
  pages_visited : nat;
  links_checked : Z;
  pdfs_found : nat;
  downloaded_count : Z
}.

Definition summary (st : State) : Summary :=
  mkSummary (size (seen_pages st)) (checked_links st)
    (size (found_pdfs st)) (downloaded st).

(** Chronological views of the trace. *)
Definition history (st : State) : list event := rev (trace st).

Definition dequeued (tr : list event) : list string :=
  omap (λ e, match e with Dequeue u _ => Some u | _ => None end) tr.
Definition pages_fetched (tr : list event) : list string :=
  omap (λ e, match e with GetPage u => Some u | _ => None end) tr.
Definition probed (tr : list event) : list string :=
  omap (λ e, match e with HeadProbe u => Some u | _ => None end) tr.
Definition files_fetched (tr : list event) : list string :=
  omap (λ e, match e with GetFile u => Some u | _ => None end) tr.

(** ** Invariants of the crawl state *)

Section Invariants.

Variable rp : RobotFileParser.
Variable cfg : Config.

(** A frontier entry is the seed, or a page link that passed the tests
    of lines 222-223. *)
Definition entry_ok (e : string * Z) : Prop :=
  e = (start_url cfg, 0)
  ∨ (1 ≤ e.2 ≤ max_depth cfg ∧ in_scope cfg e.1 = true).

(** What the trace and the two sets satisfy between iterations. *)
Record trace_inv (st : State) : Prop := mkTraceInv {
  inv_pages_nodup : NoDup (pages_fetched (trace st));
  inv_files_nodup : NoDup (files_fetched (trace st));
  inv_pages_checked :
    Forall (λ u, u ∈ seen_pages st ∧ in_scope cfg u = true
                 ∧ allowed_by_robots rp u = true)
           (pages_fetched (trace st));
  inv_files_found :
    ∀ u, u ∈ files_fetched (trace st) ↔ u ∈ found_pdfs st;
  inv_found_allowed :
    set_Forall (λ u, allowed_by_robots rp u = true) (found_pdfs st)
}.

(** The remaining depth budget of a frontier entry. *)
Definition weight (d : Z) : nat := Z.to_nat (max_depth cfg - d).

Definition weights (st : State) : list nat :=
  (λ e : string * Z, weight e.2) <$> queued st.

End Invariants.

(** ** The specification's wording, for comparison *)

(** The path as the list of its [/]-separated segments. *)
Fixpoint path_segments (p : string) : list string :=
  match p with
  | EmptyString => [EmptyString]
  | String c p' =>
      if Ascii.eqb c "/" then EmptyString :: path_segments p'
      else match path_segments p' with
           | seg :: segs => String c seg :: segs
           | [] => [String c EmptyString]
           end
  end.

(** "U's path starts with base's path as a segment prefix" *)
Definition spec_under_base_path (url base : string) : bool :=
  is_same_site url base
  && bool_decide (path_segments (path (urlparse base))
                    `prefix_of` path_segments (path (urlparse url))).

(** "word characters, hyphen, period, parentheses, plus, space" *)
Definition spec_allow_list (c : ascii) : bool :=
  re_word c || has_char c "-.()+ ".

(** ** Scenarios *)

Module Scenario.

Definition seed : string := "http://site.example/ref/".
Definition page2 : string := "http://site.example/ref/page2".
Definition doc_a : string := "http://site.example/ref/a.pdf".
Definition doc_b : string := "http://site.example/ref/b.pdf".
Definition external : string := "http://other.example/x".
Definition external_pdf : string := "http://other.example/files/x.pdf".
Definition private : string := "http://site.example/ref/private".
Definition page_a : string := "http://site.example/ref/A".
Definition page_b : string := "http://site.example/ref/B".

(** A static site: each URL has a fixed list of links. *)
Fixpoint site (pages : list (string * list string)) (u : string)
  : option (list string) :=
  match pages with
  | [] => None
  | (p, links) :: pages' =>
      if String.eqb p u then Some links else site pages' u
  end.

Definition static_world (pages : list (string * list string)) : World :=
  mkWorld (λ _ u, site pages u) (λ _ _, false) (λ _ _, Saved).

Definition cfg_default : Config := mkConfig seed "out" 2 (1#2) true.

(** A robots.txt that was read and names no rule for the agent. *)
Definition rp_open : RobotFileParser :=
  load_robots (Parsed 1 (λ _ _, Some true) (λ _, None)).

(** A robots.txt with [Disallow: /ref/private] for every agent. *)
Definition rp_private : RobotFileParser :=
  load_robots
    (Parsed 1
       (λ _ u, Some (negb (startswith (path (urlparse u)) "/ref/private")))
       (λ _, None)).

(** The end-to-end scenario of the specification. *)
Definition end_to_end : World :=
  static_world [(seed, [doc_a; page2; external]); (page2, [doc_b])].

(** The seed also links to a PDF on another host. *)
Definition with_external_pdf : World :=
  static_world [(seed, [doc_a; external_pdf])].

(** The seed links to a page the policy disallows. *)
Definition with_private : World :=
  static_world [(seed, [private])].

(** Two pages that link to each other. *)
Definition cycle : World :=
  static_world [(seed, [page2]); (page2, [seed])].

(** The seed links to A and B, and A links to B as well. *)
Definition diamond : World :=
  static_world [(seed, [page_a; page_b]); (page_a, [page_b]); (page_b, [])].

End Scenario.

(** ** Further views of the trace and the state *)

Definition dequeue_depths (tr : list event) : list Z :=
  omap (λ e, match e with Dequeue _ d => Some d | _ => None end) tr.

Definition sleeps (tr : list event) : list Q :=
  omap (λ e, match e with Sleep d => Some d | _ => None end) tr.

Definition is_get (e : event) : bool :=
  match e with GetPage _ | GetFile _ => true | _ => false end.

(** Every sleep comes right after a GET (the trace has the newest event
    first). *)
Fixpoint sleeps_follow_gets (tr : list event) : bool :=
  match tr with
  | [] => true
  | Sleep _ :: tr' =>
      match tr' with e :: _ => is_get e | [] => false end
      && sleeps_follow_gets tr'
  | _ :: tr' => sleeps_follow_gets tr'
  end.

(** The downloads that returned: a file GET with the sleep of line 216
    after it. *)
Fixpoint completed_downloads (tr : list event) : nat :=
  match tr with
  | [] => O
  | Sleep _ :: tr' =>
      match tr' with
      | GetFile _ :: _ => S (completed_downloads tr')
      | _ => completed_downloads tr'
      end
  | _ :: tr' => completed_downloads tr'
  end.

(** Lines 232-235: the preview of the summary, [sorted(found_pdfs)[:10]]. *)
Definition preview (found : gset string) : list string :=
  take 10 (merge_sort String.le (elements found)).

Section Outcomes.

Variable rp : RobotFileParser.
Variable cfg : Config.

(** The states in which one round of the [for] loop can leave [st]. *)
Inductive link_outcome (d : Z) (st : State) (link : string)
  : State → Prop :=
| lo_skipped :
    link_outcome d st link (count_link st)
| lo_probed :
    looks_like_pdf link = false →
    link_outcome d st link (log (HeadProbe link) (count_link st))
| lo_enqueued :
    looks_like_pdf link = false →
    d < max_depth cfg →
    in_scope cfg link = true →
    link ∉ seen_pages st →
    link_outcome d st link
      (set_queued (queued st ++ [(link, d + 1)])
         (log (HeadProbe link) (count_link st)))
| lo_saved (st0 : State) (t : string) :
    st0 = count_link st
    ∨ (looks_like_pdf link = false
       ∧ st0 = log (HeadProbe link) (count_link st)) →
    allowed_by_robots rp link = true →
    link ∉ found_pdfs st →
    t ∉ files st →
    link_outcome d st link
      (log (Sleep (enforced_delay rp cfg))
         (count_download
            (set_files ({[t]} ∪ files st)
               (log (GetFile link) (add_found link st0)))))
| lo_failed (st0 : State) (fs : gset string) :
    st0 = count_link st
    ∨ (looks_like_pdf link = false
       ∧ st0 = log (HeadProbe link) (count_link st)) →
    allowed_by_robots rp link = true →
    link ∉ found_pdfs st →
    files st ⊆ fs →
    link_outcome d st link
      (set_files fs (log (GetFile link) (add_found link st0))).

(** The frontier is sorted by depth and spans at most two depths, and
    the depths dequeued so far do not exceed them. *)
Definition bfs_inv (st : State) : Prop :=
  ∃ (d : Z) (q1 q2 : list Z),
    (snd <$> queued st) = q1 ++ q2
    ∧ Forall (λ x, x = d) q1
    ∧ Forall (λ x, x = d + 1) q2
    ∧ Forall (λ x, x ≤ d) (dequeue_depths (trace st))
    ∧ StronglySorted (λ a b, b ≤ a) (dequeue_depths (trace st)).

(** What the counters of the summary and the trace satisfy, for a crawl
    started with the files [fs0]. *)
Record counters_inv (fs0 : gset string) (st : State) : Prop := mkCountersInv {
  cnt_downloaded :
    0 ≤ downloaded st ≤ Z.of_nat (length (files_fetched (trace st)));
  cnt_completed :
    downloaded st = Z.of_nat (completed_downloads (trace st));
  cnt_found :
    Z.of_nat (length (files_fetched (trace st))) ≤ checked_links st;
  cnt_probed :
    Z.of_nat (length (probed (trace st))) ≤ checked_links st;
  cnt_kept : fs0 ⊆ files st;
  cnt_files :
    Z.of_nat (size fs0) + downloaded st ≤ Z.of_nat (size (files st))
}.

(** What the trace satisfies beyond [trace_inv]. *)
Record polite_inv (st : State) : Prop := mkPoliteInv {
  pol_sleeps : Forall (λ d, d = enforced_delay rp cfg) (sleeps (trace st));
  pol_after_get : sleeps_follow_gets (trace st) = true;
  pol_probed : Forall (λ u, looks_like_pdf u = false) (probed (trace st))
}.

End Outcomes.

Section Provenance.

Variable W : World.
Variable cfg : Config.

(** [u] is a link of a page that the crawl has fetched. *)
Definition linked_from_fetched (st : State) (u : string) : Prop :=
  ∃ page tr links,
    page_links W tr page = Some links ∧ u ∈ links
    ∧ page ∈ pages_fetched (trace st).

Record provenance_inv (st : State) : Prop := mkProvenanceInv {
  prov_queued :
    Forall (λ e : string * Z,
              e = (start_url cfg, 0) ∨ linked_from_fetched st e.1)
           (queued st);
  prov_dequeued :
    Forall (λ u, u = start_url cfg ∨ linked_from_fetched st u)
           (dequeued (trace st));
  prov_probed : Forall (linked_from_fetched st) (probed (trace st));
  prov_files : Forall (linked_from_fetched st) (files_fetched (trace st))
}.

End Provenance.

(** ** Link extraction: [normalize_link] and [extract_links]

    [urllib.parse.urljoin] and [urllib.parse.urldefrag] as the library
    has them, on text input. *)

Module UrlJoin.
Import PyStr UrlParse.

(** [s.rstrip(chars)] and [s.strip(chars)] *)
Definition rstrip (p : ascii → bool) (s : string) : string :=
  String.rev (lstrip p (String.rev s)).

Definition strip (p : ascii → bool) (s : string) : string :=
  rstrip p (lstrip p s).

(** [s.split(c)] *)
Fixpoint str_split (c : ascii) (s : string) : list string :=
  match s with
  | EmptyString => [EmptyString]
  | String d s' =>
      if Ascii.eqb d c then EmptyString :: str_split c s'
      else match str_split c s' with
           | seg :: segs => String d seg :: segs
           | [] => [String d EmptyString]
           end
  end.

Definition uses_relative : list string :=
  [""; "ftp"; "http"; "gopher"; "nntp"; "imap"; "wais"; "file"; "https";
   "shttp"; "mms"; "prospero"; "rtsp"; "rtspu"; "sftp"; "svn"; "svn+ssh";
   "ws"; "wss"].

Definition uses_netloc : list string :=
  [""; "ftp"; "http"; "gopher"; "nntp"; "telnet"; "imap"; "wais"; "file";
   "mms"; "https"; "shttp"; "snews"; "prospero"; "rtsp"; "rtspu"; "rsync";
   "svn"; "svn+ssh"; "sftp"; "nfs"; "git"; "git+ssh"; "ws"; "wss"].

(** [urlparse(url, scheme)]: [scheme] is the default when the URL has
    none of its own. *)
Definition urlparse_scheme (default url : string) : ParseResult :=
  let url := lstrip c0_control_or_space url in
  let default := strip c0_control_or_space default in
  let url := filter_chars (λ c, negb (unsafe_url_byte c)) url in
  let default := filter_chars (λ c, negb (unsafe_url_byte c)) default in
  let '(found, url) := split_scheme url in
  let scheme := if String.eqb found "" then default else found in
  let '(netloc, url) :=
    if String.eqb (str_take 2 url) "//" then _splitnetloc url 2 else ("", url) in
  let '(url, fragment) :=
    if has_char "#" url then split_first "#" url else (url, "") in
  let '(url, query) :=
    if has_char "?" url then split_first "?" url else (url, "") in
  let '(url, params) :=
    if bool_decide (scheme ∈ uses_params) && has_char ";" url
    then _splitparams url else (url, "") in
  mkParseResult scheme netloc url params query fragment.

Definition urlunsplit (scheme netloc url query fragment : string) : string :=
  let url :=
    if negb (String.eqb netloc "")
       || (negb (String.eqb scheme "") && bool_decide (scheme ∈ uses_netloc)
           && negb (String.eqb (str_take 2 url) "//"))
    then
      let url :=
        if negb (String.eqb url "") && negb (String.eqb (str_take 1 url) "/")
        then "/" +:+ url else url in
      "//" +:+ netloc +:+ url
    else url in
  let url := if negb (String.eqb scheme "") then scheme +:+ ":" +:+ url else url in
  let url := if negb (String.eqb query "") then url +:+ "?" +:+ query else url in
  let url :=
    if negb (String.eqb fragment "") then url +:+ "#" +:+ fragment else url in
  url.

Definition urlunparse (r : ParseResult) : string :=
  let url :=
    if negb (String.eqb (params r) "") then path r +:+ ";" +:+ params r
    else path r in
  urlunsplit (scheme r) (netloc r) url (query r) (fragment r).

(** [urldefrag(url)[0]] *)
Definition urldefrag (url : string) : string :=
  if has_char "#" url then
    let r := urlparse url in
    urlunparse
      (mkParseResult (scheme r) (netloc r) (path r) (params r) (query r) "")
  else url.

(** [segments[1:-1] = filter(None, segments[1:-1])] *)
Definition drop_empty_middle (segments : list string) : list string :=
  match segments with
  | first :: (_ :: _) as rest =>
      first :: filter (λ seg, seg ≠ "") (removelast rest)
        ++ [List.last rest ""]
  | _ => segments
  end.

(** The loop over the segments; the resolved path is kept with its last
    segment first. *)
Definition resolve_segment (resolved : list string) (seg : string)
    : list string :=
  if String.eqb seg ".." then tail resolved
  else if String.eqb seg "." then resolved
  else seg :: resolved.

Definition urljoin (base url : string) : string :=
  if String.eqb base "" then url
  else if String.eqb url "" then base
  else
    let b := urlparse base in
    let u := urlparse_scheme (scheme b) url in
    if negb (String.eqb (scheme u) (scheme b))
       || negb (bool_decide (scheme u ∈ uses_relative)) then url
    else if bool_decide (scheme u ∈ uses_netloc)
            && negb (String.eqb (netloc u) "") then urlunparse u
    else
      let netloc :=
        if bool_decide (scheme u ∈ uses_netloc) then netloc b else netloc u in
      if String.eqb (path u) "" && String.eqb (params u) "" then
        let query := if String.eqb (query u) "" then query b else query u in
        urlunparse
          (mkParseResult (scheme u) netloc (path b) (params b) query
             (fragment u))
      else
        let base_parts := str_split "/" (path b) in
        let base_parts :=
          if negb (String.eqb (List.last base_parts "") "")
          then removelast base_parts else base_parts in
        let segments :=
          if String.eqb (str_take 1 (path u)) "/" then str_split "/" (path u)
          else drop_empty_middle (base_parts ++ str_split "/" (path u)) in
        let resolved := rev (fold_left resolve_segment segments []) in
        let resolved :=
          if String.eqb (List.last segments "") "."
             || String.eqb (List.last segments "") ".."
          then resolved ++ [""] else resolved in
        let joined := String.concat "/" resolved in
        urlunparse
          (mkParseResult (scheme u) netloc
             (if String.eqb joined "" then "/" else joined)
             (params u) (query u) (fragment u)).

End UrlJoin.

Import UrlJoin.

(** [href.strip()] removes the whitespace of the class [\s]. *)
Definition normalize_link (href base_url : string) : option string :=
  if String.eqb href "" then None
  else
    let href := strip re_space href in
    if startswith href "mailto:" || startswith href "tel:"
       || startswith href "javascript:" then None
    else
      let absolute := urljoin base_url href in
      let absolute := urldefrag absolute in
      Some absolute.

(** Lines 136-141, from the [href] values of the anchors that
    [find_all("a", href=True)] returns. *)
Definition extract_links (hrefs : list string) (base_url : string)
    : gset string :=
  fold_left
    (λ links href,
       match normalize_link href base_url with
       | Some u => if String.eqb u "" then links else {[u]} ∪ links
       | None => links
       end)
    hrefs ∅.

(** ** [upload_files.py]

    The client is an oracle that answers a call from the calls issued so
    far (newest first); [None] and [false] stand for a call that raises.
    Nothing in the script catches an exception, so the first failure ends
    the run. Console output is left out. *)

Module Upload.

Definition STORE_NAME : string := "policy-vector-store".
Definition STORE_ID_FILE : string := "store_id.txt".

(** What [base_dir] is on disk: for a directory, the paths that
    [glob("*")] yields, each with the answer of [is_file()]. *)
Inductive dir_state :=
| Missing
| NotADirectory
| Directory (entries : list (string * bool)).

Inductive failure :=
| NoPolicyDirectory   (* FileNotFoundError: the directory does not exist *)
| NoPolicyFiles       (* FileNotFoundError: no files found *)
| ClientError.        (* whatever the client raised *)

Inductive call :=
| CreateStore (name : string)
| UploadFile (path : string)
| AttachFile (store_id file_id : string)
| WriteFile (name content : string).

Record Client := mkClient {
  create_store : list call → string → option string;
  upload : list call → string → option string;
  attach : list call → string → string → bool
}.

Definition get_existing_policy_files (base_dir : dir_state)
    : list string + failure :=
  match base_dir with
  | Missing | NotADirectory => inr NoPolicyDirectory
  | Directory entries =>
      let files := fst <$> filter (λ e : string * bool, e.2 = true) entries in
      match files with
      | [] => inr NoPolicyFiles
      | _ :: _ => inl files
      end
  end.

(** The [for] loop of [upload_files_and_attach], from the calls [tr] and
    the ids [file_ids] collected so far. *)
Fixpoint upload_files_and_attach (client : Client) (store_id : string)
    (file_paths : list string) (tr : list call) (file_ids : list string)
    : list call * option (list string) :=
  match file_paths with
  | [] => (tr, Some file_ids)
  | p :: rest =>
      match upload client tr p with
      | None => (UploadFile p :: tr, None)
      | Some id =>
          let tr := UploadFile p :: tr in
          let file_ids := file_ids ++ [id] in
          if attach client tr store_id id then
            upload_files_and_attach client store_id rest
              (AttachFile store_id id :: tr) file_ids
          else (AttachFile store_id id :: tr, None)
      end
  end.

(** The calls of a loop that ran to its end: one upload and one attach
    per file, in the order of the files. *)
Definition calls_for (store_id : string) (files ids : list string)
    : list call :=
  mjoin ((λ pi : string * string,
            [UploadFile pi.1; AttachFile store_id pi.2]) <$> zip files ids).

Definition main (client : Client) (policy_dir : dir_state)
    : list call * option failure :=
  match get_existing_policy_files policy_dir with
  | inr e => ([], Some e)
  | inl files =>
      match create_store client [] STORE_NAME with
      | None => ([CreateStore STORE_NAME], Some ClientError)
      | Some store_id =>
          match upload_files_and_attach client store_id files
                  [CreateStore STORE_NAME] [] with
          | (tr, None) => (tr, Some ClientError)
          | (tr, Some _) => (WriteFile STORE_ID_FILE store_id :: tr, None)
          end
      end
  end.

End Upload.

(** ** [ask_questions.py]: the answer that [main] prints

    An output item is the list of its content blocks (a missing or empty
    [content] is the empty list); a block has its [type] (the empty string
    when it has none) and its [text]. *)

Module Ask.

Record Block := mkBlock { block_type : string; block_text : string }.

Definition NO_ANSWER : string := "[No answer text found]".

(** Lines 72-79 *)
Definition scan_block (final_text : option string) (block : Block)
    : option string :=
  if String.eqb (block_type block) "output_text"
  then Some (block_text block) else final_text.

Definition final_text (output : list (list Block)) : option string :=
  fold_left (λ final content, fold_left scan_block content final) output None.

(** Line 80: [final_text or "[No answer text found]"] *)
Definition answer (output : list (list Block)) : string :=
  match final_text output with
  | Some text => if String.eqb text "" then NO_ANSWER else text
  | None => NO_ANSWER
  end.

End Ask.

(** * Properties *)

(** ** Strings *)

Section StringFacts.
Import PyStr.

Lemma ascii_eqb_true (a b : ascii) : Ascii.eqb a b = true ↔ a = b.
Proof. apply Ascii.eqb_eq. Qed.

Lemma str_app_cons (c : ascii) (s t : string) :
  String c s +:+ t = String c (s +:+ t).
Proof. reflexivity. Qed.

Lemma str_app_nil (t : string) : "" +:+ t = t.
Proof. reflexivity. Qed.

Lemma str_app_empty_r (s : string) : s +:+ "" = s.
Proof.
  induction s as [|c s IH]; [done|]. by rewrite str_app_cons, IH.
Qed.

Lemma length_str_app (s t : string) :
  String.length (s +:+ t) = (String.length s + String.length t)%nat.
Proof.
  induction s as [|c s IH]; [done|].
  rewrite str_app_cons. simpl. by rewrite IH.
Qed.

Lemma str_app_assoc (s t u : string) : (s +:+ t) +:+ u = s +:+ t +:+ u.
Proof.
  induction s as [|c s IH]; [done|].
  rewrite !str_app_cons. by rewrite IH.
Qed.

Lemma str_app_inv_tail (s s' t : string) : s +:+ t = s' +:+ t → s = s'.
Proof.
  revert s'. induction s as [|c s IH]; intros [|c' s'] H.
  - done.
  - apply (f_equal String.length) in H.
    rewrite str_app_cons, str_app_nil in H. simpl in H.
    rewrite length_str_app in H. lia.
  - apply (f_equal String.length) in H.
    rewrite str_app_cons, str_app_nil in H. simpl in H.
    rewrite length_str_app in H. lia.
  - rewrite !str_app_cons in H. injection H as -> H. f_equal. by apply IH.
Qed.

Lemma startswith_spec (s p : string) :
  startswith s p = true ↔ ∃ rest, s = p +:+ rest.
Proof.
  revert s. induction p as [|a p IH]; intros s; simpl.
  - split; [intros _; by exists s | auto].
  - destruct s as [|b s].
    + split; [done | intros [rest H]; rewrite str_app_cons in H; discriminate].
    + rewrite andb_true_iff, ascii_eqb_true, IH. split.
      * intros [-> [rest ->]]. by exists rest.
      * intros [rest H]. rewrite str_app_cons in H.
        injection H as -> ->. split; [done | by exists rest].
Qed.

Lemma startswith_refl (s : string) : startswith s s = true.
Proof.
  induction s as [|c s IH]; simpl; [done|].
  by rewrite IH, Ascii.eqb_refl.
Qed.

Lemma length_map_chars f (s : string) :
  String.length (map_chars f s) = String.length s.
Proof. induction s as [|c s IH]; simpl; [done|]. by rewrite IH. Qed.

Lemma get_map_chars f (s : string) (i : nat) :
  String.get i (map_chars f s) = f <$> String.get i s.
Proof.
  revert i. induction s as [|c s IH]; intros [|i]; simpl; done.
Qed.

Lemma length_str_drop (n : nat) (s : string) :
  String.length (str_drop n s) = (String.length s - n)%nat.
Proof.
  revert s. induction n as [|n IH]; intros [|c s]; simpl; done.
Qed.

Lemma get_str_drop (n i : nat) (s : string) :
  String.get i (str_drop n s) = String.get (i + n) s.
Proof.
  revert s. induction n as [|n IH]; intros s.
  - simpl. destruct s; by rewrite Nat.add_0_r.
  - destruct s as [|c s]; simpl.
    + by destruct (i + S n)%nat.
    + rewrite IH. by replace (i + S n)%nat with (S (i + n)) by lia.
Qed.

Lemma str_take_drop (n : nat) (s : string) :
  str_take n s +:+ str_drop n s = s.
Proof.
  revert s. induction n as [|n IH]; intros [|c s]; simpl; try done.
  by rewrite str_app_cons, IH.
Qed.

End StringFacts.

(** ** Scope policy *)

Example urlparse_start :
  urlparse "https://www.in.gov/medicaid/providers/?x=1#top"
  = mkParseResult "https" "www.in.gov" "/medicaid/providers/" "" "x=1" "top".
Proof. vm_compute. reflexivity. Qed.

Example looks_like_pdf_upper : looks_like_pdf "http://h/ref/A.PDF?dl=1" = true.
Proof. vm_compute. reflexivity. Qed.

Lemma is_same_site_refl (url : string) : is_same_site url url = true.
Proof. unfold is_same_site. apply String.eqb_refl. Qed.

Lemma is_under_base_path_refl (url : string) :
  is_under_base_path url url = true.
Proof.
  unfold is_under_base_path. by rewrite String.eqb_refl, startswith_refl.
Qed.

(** C2, as stated, fails: the specification's own example [/ab] against
    the base [/a] is accepted by [is_under_base_path], although [/a] is no
    segment prefix of [/ab]. *)
Lemma under_base_path_not_segment_prefix :
  is_under_base_path "http://h/ab" "http://h/a" = true
  ∧ spec_under_base_path "http://h/ab" "http://h/a" = false.
Proof. split; vm_compute; reflexivity. Qed.

(** C2, amended: [is_under_base_path url base] holds exactly when the two
    URLs have the same network authority and the path of [url] is the path
    of [base] followed by any string (a prefix of characters, not of
    segments): [/a/b] is under [/a], and so is [/ab]. *)
Theorem is_under_base_path_string_prefix :
  (∀ url base : string,
     is_under_base_path url base = true
     ↔ is_same_site url base = true
       ∧ ∃ rest, path (urlparse url) = path (urlparse base) +:+ rest)
  ∧ is_under_base_path "http://h/a/b" "http://h/a" = true
  ∧ is_under_base_path "http://h/ab" "http://h/a" = true
  ∧ is_under_base_path "http://other/a/b" "http://h/a" = false.
Proof.
  split; [|repeat split; vm_compute; reflexivity].
  intros url base. unfold is_under_base_path, is_same_site.
  by rewrite andb_true_iff, startswith_spec.
Qed.

(** ** Filenames *)

Lemma kept_char_allow_list (c : ascii) :
  kept_char c = spec_allow_list c || re_space c.
Proof. destruct c as [[] [] [] [] [] [] [] []]; vm_compute; reflexivity. Qed.

(** C9, as stated, fails: the tab character is not in the allow-list the
    claim names, yet [sanitize_filename] keeps it. *)
Lemma sanitize_filename_keeps_tab :
  spec_allow_list "009" = false
  ∧ sanitize_filename (String "009" "") = String "009" "".
Proof. split; vm_compute; reflexivity. Qed.

(** C9, amended: [sanitize_filename] keeps the last 180 characters of the
    name when it is longer than 180, and all of it otherwise; in what it
    keeps, a character is unchanged when it is a word character, a
    hyphen, a period, a parenthesis, a plus or any whitespace character
    (the space, and also tab, newline and the other characters of the
    class [\s]), and is an underscore otherwise. *)
Theorem sanitize_filename_spec (name : string) :
  let out := sanitize_filename name in
  let off := (String.length name - String.length out)%nat in
  String.length out = Nat.min (String.length name) 180
  ∧ (∀ i : nat,
       String.get i out
       = (λ c, if kept_char c then c else "_"%char)
           <$> String.get (i + off) name)
  ∧ (∀ c, kept_char c = spec_allow_list c || re_space c)
  ∧ re_space " " = true ∧ re_space "009" = true ∧ re_space "010" = true.
Proof.
  cbv zeta. unfold sanitize_filename.
  rewrite length_map_chars.
  destruct (180 <? String.length name)%nat eqn:Hlen.
  - apply Nat.ltb_lt in Hlen.
    rewrite length_str_drop, length_map_chars.
    rewrite Nat.min_r by lia.
    split; [lia|]. split; [|split; [apply kept_char_allow_list | done]].
    intros i. rewrite get_str_drop, get_map_chars. do 2 f_equal. lia.
  - apply Nat.ltb_ge in Hlen.
    rewrite length_map_chars, Nat.min_l by lia.
    split; [lia|]. split; [|split; [apply kept_char_allow_list | done]].
    intros i. rewrite get_map_chars. do 2 f_equal. lia.
Qed.

(** ** Collision-free target paths *)

Lemma splitext_app (p : string) :
  (OsPath.splitext p).1 +:+ (OsPath.splitext p).2 = p.
Proof.
  unfold OsPath.splitext. case_match; simpl.
  - apply str_take_drop.
  - apply str_app_empty_r.
Qed.

Lemma candidate_inj (base ext : string) : Inj (=) (=) (candidate base ext).
Proof.
  intros i j H. unfold candidate in H.
  do 2 apply String.app_inj in H.
  apply str_app_inv_tail in H.
  by apply (inj pretty) in H.
Qed.

Lemma candidate_ne_target (base ext : string) (i : Z) :
  candidate base ext i ≠ base +:+ ext.
Proof.
  unfold candidate. intros H. apply String.app_inj in H.
  apply (f_equal String.length) in H.
  rewrite str_app_cons, str_app_cons, str_app_nil in H. simpl in H.
  rewrite !length_str_app in H. simpl in H. lia.
Qed.

Section EnsureUnique.

Variable exists_ : string → bool.
Variables base ext : string.

(** What the loop returned, or what it saw before the fuel ran out. *)
Lemma ensure_unique_loop_result (fuel : nat) (i : Z) :
  match ensure_unique_loop fuel exists_ base ext i with
  | Some r =>
      ∃ k : nat, (k < fuel)%nat ∧ r = candidate base ext (i + Z.of_nat k)
        ∧ exists_ r = false
        ∧ ∀ j : nat, (j < k)%nat → exists_ (candidate base ext (i + Z.of_nat j)) = true
  | None =>
      ∀ j : nat, (j < fuel)%nat → exists_ (candidate base ext (i + Z.of_nat j)) = true
  end.
Proof.
  revert i. induction fuel as [|fuel IH]; intros i; simpl.
  - intros j Hj. lia.
  - destruct (exists_ (candidate base ext i)) eqn:Hi; simpl.
    + specialize (IH (i + 1)).
      destruct (ensure_unique_loop fuel exists_ base ext (i + 1)) as [r|].
      * destruct IH as (k & Hk & -> & Hfree & Hbusy).
        exists (S k). split; [lia|]. split; [f_equal; lia|].
        split; [done|]. intros [|j] Hj.
        -- simpl. by rewrite Z.add_0_r.
        -- replace (i + Z.of_nat (S j)) with (i + 1 + Z.of_nat j) by lia. apply Hbusy. lia.
      * intros [|j] Hj.
        -- simpl. by rewrite Z.add_0_r.
        -- replace (i + Z.of_nat (S j)) with (i + 1 + Z.of_nat j) by lia. apply IH. lia.
    + exists 0%nat. rewrite Z.add_0_r. split; [lia|].
      split; [done|]. split; [done|]. intros j Hj. lia.
Qed.

(** More fuel does not change a result. *)
Lemma ensure_unique_loop_mono (fuel fuel' : nat) (i : Z) (r : string) :
  (fuel ≤ fuel')%nat →
  ensure_unique_loop fuel exists_ base ext i = Some r →
  ensure_unique_loop fuel' exists_ base ext i = Some r.
Proof.
  revert fuel' i. induction fuel as [|fuel IH]; intros fuel' i Hle; [done|].
  destruct fuel' as [|fuel']; [lia|]. simpl.
  destruct (negb (exists_ (candidate base ext i))); [done|].
  apply IH. lia.
Qed.

End EnsureUnique.

(** A directory with [size fs] entries cannot hold all of the first
    [S (size fs)] candidates. *)
Lemma ensure_unique_loop_fs_total (fs : gset string) (base ext : string) (i : Z) :
  is_Some (ensure_unique_loop (S (size fs)) (path_exists fs) base ext i).
Proof.
  pose proof (ensure_unique_loop_result (path_exists fs) base ext
                (S (size fs)) i) as H.
  destruct (ensure_unique_loop _ _ _ _ _) as [r|]; [by eexists|].
  exfalso.
  set (cands := (λ j : nat, candidate base ext (i + Z.of_nat j)) <$> seq 0 (S (size fs))).
  assert (NoDup cands) as Hnd.
  { apply NoDup_fmap_2; [|apply NoDup_seq].
    intros j j' Hjj'. apply candidate_inj in Hjj'. lia. }
  assert (∀ x, x ∈ cands → x ∈ elements fs) as Hsub.
  { intros x [j [-> Hj]]%list_elem_of_fmap.
    apply elem_of_seq in Hj. apply elem_of_elements.
    specialize (H j ltac:(lia)). unfold path_exists in H.
    by apply bool_decide_eq_true in H. }
  pose proof (submseteq_length _ _ (NoDup_submseteq _ _ Hnd Hsub)) as Hlen.
  unfold cands in Hlen. rewrite length_fmap, length_seq in Hlen.
  unfold size, set_size in Hlen. simpl in Hlen. lia.
Qed.

Lemma ensure_unique_path_fs_total (fs : gset string) (target : string) :
  ensure_unique_path (S (size fs)) (path_exists fs) target
  = Some (ensure_unique_path_fs fs target).
Proof.
  unfold ensure_unique_path_fs.
  destruct (ensure_unique_path _ _ _) as [r|] eqn:H; [done|].
  unfold ensure_unique_path in H.
  destruct (negb (path_exists fs target)); [done|].
  destruct (OsPath.splitext target) as [base ext].
  destruct (ensure_unique_loop_fs_total fs base ext 1) as [r Hr]. congruence.
Qed.

(** The name chosen for [target]: [target] itself when it is free, and
    otherwise the candidate with the least free index from 1 on. *)
Lemma ensure_unique_path_fs_choice (fs : gset string) (target : string) :
  let chosen := ensure_unique_path_fs fs target in
  (chosen ∉ fs)
  ∧ (target ∉ fs → chosen = target)
  ∧ (target ∈ fs →
     ∃ N : Z, 1 ≤ N
       ∧ chosen = candidate (OsPath.splitext target).1 (OsPath.splitext target).2 N
       ∧ ∀ j : Z, 1 ≤ j < N →
           candidate (OsPath.splitext target).1 (OsPath.splitext target).2 j ∈ fs).
Proof.
  cbv zeta. pose proof (ensure_unique_path_fs_total fs target) as Htot.
  set (chosen := ensure_unique_path_fs fs target) in *. clearbody chosen.
  unfold ensure_unique_path in Htot.
  destruct (OsPath.splitext target) as [base ext]. cbn [fst snd].
  pose proof (ensure_unique_loop_result (path_exists fs) base ext
                (S (size fs)) 1) as H.
  destruct (path_exists fs target) eqn:Hex; cbn [negb] in Htot;
    unfold path_exists in Hex.
  - apply bool_decide_eq_true in Hex.
    rewrite Htot in H. destruct H as (k & _ & -> & Hfree & Hbusy).
    unfold path_exists in Hfree. apply bool_decide_eq_false in Hfree.
    split; [done|]. split; [done|]. intros _.
    exists (1 + Z.of_nat k). split; [lia|]. split; [done|].
    intros j Hj. specialize (Hbusy (Z.to_nat (j - 1)) ltac:(lia)).
    unfold path_exists in Hbusy. apply bool_decide_eq_true in Hbusy.
    by replace (1 + Z.of_nat (Z.to_nat (j - 1))) with j in Hbusy by lia.
  - apply bool_decide_eq_false in Hex. injection Htot as <-.
    split; [done|]. split; [done|]. done.
Qed.

Lemma candidate_one (base ext : string) :
  candidate base ext 1 = base +:+ " (1)" +:+ ext.
Proof. reflexivity. Qed.

(** With [target] taken and the first candidate free, the first
    candidate is chosen. *)
Lemma ensure_unique_path_fs_first (fs : gset string) (target : string) :
  target ∈ fs →
  candidate (OsPath.splitext target).1 (OsPath.splitext target).2 1 ∉ fs →
  ensure_unique_path_fs fs target
  = candidate (OsPath.splitext target).1 (OsPath.splitext target).2 1.
Proof.
  intros Hin Hfree.
  destruct (ensure_unique_path_fs_choice fs target) as (_ & _ & H).
  destruct (H Hin) as (N & HN & -> & Hbusy).
  destruct (decide (N = 1)) as [->|Hne]; [done|].
  destruct Hfree. apply Hbusy. lia.
Qed.

(** C8. When the target path exists, the name chosen is the target with
    [" (N)"] put before the extension, for the least [N >= 1] whose path
    does not exist; the loop that looks for it ends, and the chosen path
    never exists already. Two downloads that normalise to the same free
    name give two distinct files, the second with [" (1)"] before the
    extension. *)
Theorem download_never_overwrites
    (fs : gset string) (target out_dir u1 u2 : string) :
  let base := (OsPath.splitext target).1 in
  let ext := (OsPath.splitext target).2 in
  let chosen := ensure_unique_path_fs fs target in
  base +:+ ext = target
  ∧ ensure_unique_path (S (size fs)) (path_exists fs) target = Some chosen
  ∧ (chosen ∉ fs)
  ∧ (target ∉ fs → chosen = target)
  ∧ (target ∈ fs →
     ∃ N : Z, 1 ≤ N
       ∧ chosen = base +:+ " (" +:+ pretty N +:+ ")" +:+ ext
       ∧ ∀ j : Z, 1 ≤ j < N →
           (base +:+ " (" +:+ pretty j +:+ ")" +:+ ext) ∈ fs)
  ∧ (let t1 := download_target fs u1 out_dir in
     let fs1 := (download_pdf fs u1 out_dir Saved).1 in
     let t2 := download_target fs1 u2 out_dir in
     (t1 ∉ fs) ∧ t1 ∈ fs1 ∧ (t2 ∉ fs1) ∧ t1 ≠ t2
     ∧ (download_name u1 out_dir = target →
        download_name u2 out_dir = target →
        target ∉ fs →
        (base +:+ " (1)" +:+ ext) ∉ fs →
        t1 = target ∧ t2 = base +:+ " (1)" +:+ ext)).
Proof.
  cbv zeta.
  destruct (ensure_unique_path_fs_choice fs target) as (Hfree & Hid & Hnum).
  split; [apply splitext_app|].
  split; [apply ensure_unique_path_fs_total|].
  split; [done|]. split; [done|]. split; [done|].
  unfold download_pdf, download_target. cbn [fst].
  set (n1 := download_name u1 out_dir). set (n2 := download_name u2 out_dir).
  destruct (ensure_unique_path_fs_choice fs n1) as (Hfree1 & Hid1 & _).
  destruct (ensure_unique_path_fs_choice
              ({[ensure_unique_path_fs fs n1]} ∪ fs) n2) as (Hfree2 & _ & _).
  split; [done|]. split; [set_solver|]. split; [done|].
  split; [set_solver|].
  intros E1 E2 Hfresh Hcand. rewrite E1, E2 in *.
  rewrite (Hid1 Hfresh). split; [done|].
  rewrite <- candidate_one.
  apply ensure_unique_path_fs_first; [set_solver|].
  apply not_elem_of_union. split; [|by rewrite candidate_one].
  intros Heq%elem_of_singleton.
  pose proof (candidate_ne_target (OsPath.splitext target).1
                (OsPath.splitext target).2 1) as Hne.
  by rewrite splitext_app in Hne.
Qed.

Lemma download_never_overwrites_witness :
  (download_target ∅ "http://h/x/a.pdf" "out" = "out/a.pdf"
   ∧ download_target
       (download_pdf ∅ "http://h/x/a.pdf" "out" Saved).1
       "http://h/y/a.pdf" "out"
     = "out/a (1).pdf")
  ∧ ensure_unique_path_fs {["out/a.pdf"]} "out/b.pdf" = "out/b.pdf"
  ∧ ∃ N : Z, 1 ≤ N
      ∧ ensure_unique_path_fs {["out/a.pdf"; "out/a (1).pdf"]} "out/a.pdf"
        = "out/a" +:+ " (" +:+ pretty N +:+ ")" +:+ ".pdf"
      ∧ ∀ j : Z, 1 ≤ j < N →
          ("out/a" +:+ " (" +:+ pretty j +:+ ")" +:+ ".pdf")
          ∈ ({["out/a.pdf"; "out/a (1).pdf"]} : gset string).
Proof.
  split; [|split].
  - destruct (download_never_overwrites ∅ "out/a.pdf" "out"
                "http://h/x/a.pdf" "http://h/y/a.pdf")
      as (_ & _ & _ & _ & _ & _ & _ & _ & _ & H).
    apply H; [vm_compute; reflexivity | vm_compute; reflexivity
              | apply not_elem_of_empty | apply not_elem_of_empty].
  - destruct (download_never_overwrites {["out/a.pdf"]} "out/b.pdf" "" "" "")
      as (_ & _ & _ & H & _).
    apply H. intros Hin%elem_of_singleton. discriminate Hin.
  - destruct (download_never_overwrites {["out/a.pdf"; "out/a (1).pdf"]}
                "out/a.pdf" "" "" "")
      as (_ & _ & _ & _ & H & _).
    apply H. apply elem_of_union_l. apply elem_of_singleton_2. reflexivity.
Defined.

(** ** The crawl loop *)

Section CrawlFacts.

Variable W : World.
Variable rp : RobotFileParser.
Variable cfg : Config.

Lemma found_pdf_effect (st : State) (link : string) :
  let st' := found_pdf W rp cfg st link in
  seen_pages st' = seen_pages st
  ∧ queued st' = queued st
  ∧ pages_fetched (trace st') = pages_fetched (trace st)
  ∧ dequeued (trace st') = dequeued (trace st)
  ∧ probed (trace st') = probed (trace st)
  ∧ ((files_fetched (trace st') = files_fetched (trace st)
      ∧ found_pdfs st' = found_pdfs st
      ∧ link ∈ found_pdfs st)
     ∨ ((link ∉ found_pdfs st)
        ∧ files_fetched (trace st') = link :: files_fetched (trace st)
        ∧ found_pdfs st' = {[link]} ∪ found_pdfs st)).
Proof.
  cbv zeta. unfold found_pdf.
  case_bool_decide as Hin; [split_and!; try done; by left|].
  destruct (download_pdf _ _ _ _) as [fs [|]]; simpl;
    (split_and!; try done; by right).
Qed.

Lemma enqueue_page_effect (d : Z) (st : State) (link : string) :
  let st' := enqueue_page cfg d st link in
  seen_pages st' = seen_pages st
  ∧ found_pdfs st' = found_pdfs st
  ∧ trace st' = trace st
  ∧ (queued st' = queued st
     ∨ (queued st' = queued st ++ [(link, d + 1)]
        ∧ d < max_depth cfg
        ∧ in_scope cfg link = true
        ∧ link ∉ seen_pages st)).
Proof.
  cbv zeta. unfold enqueue_page.
  destruct (d <? max_depth cfg) eqn:Hd; [|split_and!; try done; by left].
  apply Z.ltb_lt in Hd.
  destruct (is_same_site link (start_url cfg) && _) eqn:Hscope;
    [|split_and!; try done; by left].
  case_bool_decide as Hseen; [split_and!; try done; by left|].
  simpl. split_and!; try done. by right.
Qed.

(** What one round of the [for] loop changes. *)
Lemma visit_link_effect (d : Z) (st : State) (link : string) :
  let st' := visit_link W rp cfg d st link in
  seen_pages st' = seen_pages st
  ∧ pages_fetched (trace st') = pages_fetched (trace st)
  ∧ dequeued (trace st') = dequeued (trace st)
  ∧ ((files_fetched (trace st') = files_fetched (trace st)
      ∧ found_pdfs st' = found_pdfs st)
     ∨ ((link ∉ found_pdfs st)
        ∧ allowed_by_robots rp link = true
        ∧ files_fetched (trace st') = link :: files_fetched (trace st)
        ∧ found_pdfs st' = {[link]} ∪ found_pdfs st))
  ∧ (queued st' = queued st
     ∨ (queued st' = queued st ++ [(link, d + 1)]
        ∧ d < max_depth cfg
        ∧ in_scope cfg link = true
        ∧ link ∉ seen_pages st)).
Proof.
  cbv zeta. unfold visit_link.
  assert (∀ st0 : State,
    allowed_by_robots rp link = true →
    let st' := found_pdf W rp cfg st0 link in
    seen_pages st' = seen_pages st0
    ∧ pages_fetched (trace st') = pages_fetched (trace st0)
    ∧ dequeued (trace st') = dequeued (trace st0)
    ∧ ((files_fetched (trace st') = files_fetched (trace st0)
        ∧ found_pdfs st' = found_pdfs st0)
       ∨ ((link ∉ found_pdfs st0)
          ∧ allowed_by_robots rp link = true
          ∧ files_fetched (trace st') = link :: files_fetched (trace st0)
          ∧ found_pdfs st' = {[link]} ∪ found_pdfs st0))
    ∧ (queued st' = queued st0
       ∨ (queued st' = queued st0 ++ [(link, d + 1)]
          ∧ d < max_depth cfg
          ∧ in_scope cfg link = true
          ∧ link ∉ seen_pages st0))) as Hpdf.
  { intros st0 Hallow. cbv zeta.
    destruct (found_pdf_effect st0 link) as (Hs & Hq & Hp & Hd & _ & Hf).
    split_and!; try done; [|by left].
    destruct Hf as [(? & ? & _)|(? & ? & ?)]; [by left | by right]. }
  destruct (looks_like_pdf link).
  - destruct (allowed_by_robots rp link) eqn:Hallow; simpl.
    + by apply (Hpdf (count_link st)).
    + split_and!; try done; by left.
  - destruct (head_pdf W _ link).
    + destruct (allowed_by_robots rp link) eqn:Hallow; simpl.
      * by apply (Hpdf (log (HeadProbe link) (count_link st))).
      * split_and!; try done; by left.
    + destruct (enqueue_page_effect d (log (HeadProbe link) (count_link st))
                  link) as (Hs & Hf & Ht & Hq).
      rewrite Hs, Hf, Ht. simpl. split_and!; try done. by left.
Qed.

Lemma trace_inv_ext (st st' : State) :
  seen_pages st ⊆ seen_pages st' →
  found_pdfs st' = found_pdfs st →
  pages_fetched (trace st') = pages_fetched (trace st) →
  files_fetched (trace st') = files_fetched (trace st) →
  trace_inv rp cfg st → trace_inv rp cfg st'.
Proof.
  intros Hseen Hfound Hpages Hfiles [H1 H2 H3 H4 H5].
  constructor.
  - by rewrite Hpages.
  - by rewrite Hfiles.
  - rewrite Hpages. eapply Forall_impl; [exact H3|].
    intros u (? & ? & ?). split; [by apply Hseen | done].
  - intros u. by rewrite Hfiles, Hfound.
  - by rewrite Hfound.
Qed.

Lemma visit_link_trace_inv (d : Z) (st : State) (link : string) :
  trace_inv rp cfg st → trace_inv rp cfg (visit_link W rp cfg d st link).
Proof.
  intros Hinv.
  destruct (visit_link_effect d st link) as (Hs & Hp & _ & Hf & _).
  destruct Hf as [[Hfiles Hfound]|(Hnew & Hallow & Hfiles & Hfound)].
  - apply (trace_inv_ext st); [by rewrite Hs | done..].
  - destruct Hinv as [H1 H2 H3 H4 H5].
    constructor.
    + by rewrite Hp.
    + rewrite Hfiles. apply NoDup_cons. split; [by rewrite H4 | done].
    + by rewrite Hp, Hs.
    + intros u. rewrite Hfiles, Hfound.
      rewrite elem_of_cons, elem_of_union, elem_of_singleton, H4. done.
    + rewrite Hfound.
      intros u [->%elem_of_singleton|Hu]%elem_of_union; [done|by apply H5].
Qed.

Lemma visit_links_trace_inv (d : Z) (links : list string) (st : State) :
  trace_inv rp cfg st → trace_inv rp cfg (visit_links W rp cfg d st links).
Proof.
  revert st. induction links as [|link links IH]; intros st Hinv; [done|].
  apply IH. by apply visit_link_trace_inv.
Qed.

(** The [for] loop leaves the visited set and the page fetches alone and
    only appends to the frontier, at the next depth and in scope. *)
Lemma visit_links_effect (d : Z) (links : list string) (st : State) :
  let st' := visit_links W rp cfg d st links in
  seen_pages st' = seen_pages st
  ∧ pages_fetched (trace st') = pages_fetched (trace st)
  ∧ dequeued (trace st') = dequeued (trace st)
  ∧ ∃ new, queued st' = queued st ++ new
      ∧ Forall (λ e : string * Z,
                  e.2 = d + 1 ∧ d < max_depth cfg
                  ∧ in_scope cfg e.1 = true ∧ e.1 ∈ links) new.
Proof.
  cbv zeta. revert st.
  induction links as [|link links IH]; intros st.
  - split_and!; try done. exists []. by rewrite app_nil_r.
  - destruct (visit_link_effect d st link) as (Hs & Hp & Hd & _ & Hq).
    destruct (IH (visit_link W rp cfg d st link))
      as (Hs' & Hp' & Hd' & new & Hq' & Hnew).
    change (visit_links W rp cfg d st (link :: links))
      with (visit_links W rp cfg d (visit_link W rp cfg d st link) links).
    rewrite Hs', Hp', Hd', Hs, Hp, Hd. split_and!; try done.
    assert (Forall (λ e : string * Z,
              e.2 = d + 1 ∧ d < max_depth cfg
              ∧ in_scope cfg e.1 = true ∧ e.1 ∈ link :: links) new) as Hnew'.
    { eapply Forall_impl; [exact Hnew|]. intros e (? & ? & ? & ?).
      split_and!; try done. by apply list_elem_of_further. }
    destruct Hq as [Hq|(Hq & Hlt & Hscope & _)].
    + exists new. by rewrite Hq', Hq.
    + exists ((link, d + 1) :: new). rewrite Hq', Hq, <- app_assoc.
      split; [done|]. apply Forall_cons. split; [|done].
      split_and!; try done. apply list_elem_of_here.
Qed.

Lemma step_nil (st : State) : queued st = [] → step W rp cfg st = st.
Proof. intros Hq. unfold step. by rewrite Hq. Qed.

(** The three ways an iteration can go. *)
Lemma step_cases (st : State) (url : string) (depth : Z)
    (rest : list (string * Z)) :
  queued st = (url, depth) :: rest →
  let st0 := log (Dequeue url depth) (set_queued rest st) in
  (url ∈ seen_pages st ∧ step W rp cfg st = st0)
  ∨ ((url ∉ seen_pages st)
     ∧ in_scope cfg url && allowed_by_robots rp url = false
     ∧ step W rp cfg st = add_seen url st0)
  ∨ ((url ∉ seen_pages st)
     ∧ in_scope cfg url = true
     ∧ allowed_by_robots rp url = true
     ∧ step W rp cfg st = visit_page W rp cfg url depth (add_seen url st0)).
Proof.
  intros Hq. cbv zeta. unfold step. rewrite Hq. simpl.
  case_bool_decide as Hseen; [by left|]. right. unfold in_scope.
  destruct (is_same_site url (start_url cfg)),
    (same_path_only cfg), (is_under_base_path url (start_url cfg)),
    (allowed_by_robots rp url); simpl; auto.
Qed.

Lemma visit_page_effect (url : string) (depth : Z) (st : State) :
  let st' := visit_page W rp cfg url depth st in
  seen_pages st' = seen_pages st
  ∧ pages_fetched (trace st') = url :: pages_fetched (trace st)
  ∧ dequeued (trace st') = dequeued (trace st)
  ∧ ∃ new, queued st' = queued st ++ new
      ∧ Forall (λ e : string * Z,
                  e.2 = depth + 1 ∧ depth < max_depth cfg
                  ∧ in_scope cfg e.1 = true) new.
Proof.
  cbv zeta. unfold visit_page.
  destruct (page_links W (trace st) url) as [links|].
  - destruct (visit_links_effect depth links
                (log (Sleep (enforced_delay rp cfg)) (log (GetPage url) st)))
      as (Hs & Hp & Hd & new & Hq & Hnew).
    rewrite Hs, Hp, Hd, Hq. split_and!; try done.
    exists new. split; [done|].
    eapply Forall_impl; [exact Hnew|]. by intros e (? & ? & ? & _).
  - simpl. split_and!; try done. exists []. by rewrite app_nil_r.
Qed.

Lemma step_effect (st : State) (url : string) (depth : Z)
    (rest : list (string * Z)) :
  queued st = (url, depth) :: rest →
  let st' := step W rp cfg st in
  dequeued (trace st') = url :: dequeued (trace st)
  ∧ seen_pages st' = {[url]} ∪ seen_pages st
  ∧ (∃ new, queued st' = rest ++ new
       ∧ Forall (λ e : string * Z,
                   e.2 = depth + 1 ∧ depth < max_depth cfg
                   ∧ in_scope cfg e.1 = true) new)
  ∧ (pages_fetched (trace st') = pages_fetched (trace st)
     ∨ ((url ∉ seen_pages st)
        ∧ in_scope cfg url = true
        ∧ allowed_by_robots rp url = true
        ∧ pages_fetched (trace st') = url :: pages_fetched (trace st))).
Proof.
  intros Hq. cbv zeta.
  destruct (step_cases st url depth rest Hq)
    as [[Hseen ->]|[(Hseen & _ & ->)|(Hseen & Hscope & Hallow & ->)]].
  - simpl. split_and!; try done; [|exists []; by rewrite app_nil_r|by left].
    apply set_eq. intros u.
    rewrite elem_of_union, elem_of_singleton.
    split; [intros ?; by right | by intros [->|?]].
  - simpl. split_and!; try done; [|by left].
    exists []. by rewrite app_nil_r.
  - destruct (visit_page_effect url depth
                (add_seen url (log (Dequeue url depth) (set_queued rest st))))
      as (Hs & Hp & Hd & Hnew).
    rewrite Hs, Hp, Hd. simpl. split_and!; try done. by right.
Qed.

Lemma init_trace_inv (fs : gset string) : trace_inv rp cfg (init cfg fs).
Proof.
  constructor; simpl.
  - apply NoDup_nil_2.
  - apply NoDup_nil_2.
  - apply Forall_nil_2.
  - intros u. set_solver.
  - intros u Hu. set_solver.
Qed.

Lemma step_trace_inv (st : State) :
  trace_inv rp cfg st → trace_inv rp cfg (step W rp cfg st).
Proof.
  intros Hinv. destruct (queued st) as [|[url depth] rest] eqn:Hq.
  { by rewrite step_nil. }
  destruct (step_cases st url depth rest Hq)
    as [[Hseen ->]|[(Hseen & _ & ->)|(Hseen & Hscope & Hallow & ->)]].
  - by apply (trace_inv_ext st).
  - apply (trace_inv_ext st); simpl; try done. set_solver.
  - assert (∀ st1 : State,
      seen_pages st1 = {[url]} ∪ seen_pages st →
      found_pdfs st1 = found_pdfs st →
      pages_fetched (trace st1) = url :: pages_fetched (trace st) →
      files_fetched (trace st1) = files_fetched (trace st) →
      trace_inv rp cfg st1) as Hfetch.
    { intros st1 Hs Hf Hp Hfi. destruct Hinv as [H1 H2 H3 H4 H5].
      constructor.
      - rewrite Hp. apply NoDup_cons. split; [|done].
        intros Hin. apply Hseen.
        rewrite Forall_forall in H3. by apply H3.
      - by rewrite Hfi.
      - rewrite Hp, Hs. apply Forall_cons. split.
        + split_and!; try done.
          apply elem_of_union_l. by apply elem_of_singleton.
        + eapply Forall_impl; [exact H3|]. intros u (? & ? & ?).
          split_and!; try done. by apply elem_of_union_r.
      - intros u. by rewrite Hfi, Hf.
      - by rewrite Hf. }
    unfold visit_page.
    destruct (page_links W _ url) as [links|].
    + apply visit_links_trace_inv. by apply Hfetch.
    + by apply Hfetch.
Qed.

Lemma step_entry_ok (st : State) :
  Forall (entry_ok cfg) (queued st) →
  Forall (entry_ok cfg) (queued (step W rp cfg st)).
Proof.
  intros Hok. destruct (queued st) as [|[url depth] rest] eqn:Hq.
  { rewrite step_nil by done. rewrite Hq. apply Forall_nil_2. }
  destruct (step_effect st url depth rest Hq) as (_ & _ & Hnew & _).
  destruct Hnew as (new & -> & Hnew).
  apply Forall_cons in Hok as [Hhead Hrest].
  apply Forall_app. split; [done|].
  eapply Forall_impl; [exact Hnew|]. intros [u d] (Hd & Hlt & Hscope).
  simpl in *. right. split; [|done].
  destruct Hhead as [Hseed|[Hdepth _]]; simpl in *; [simplify_eq|]; lia.
Qed.


(** An invariant of [step] holds after any number of iterations. *)
Lemma iterate_invariant (P : State → Prop) (n : nat) (st : State) :
  (∀ s, P s → P (step W rp cfg s)) → P st → P (iterate W rp cfg n st).
Proof.
  intros Hstep. revert st.
  induction n as [|n IH]; intros st Hst; [done|].
  simpl. apply IH. by apply Hstep.
Qed.

Lemma reachable_trace_inv (fs : gset string) (n : nat) :
  trace_inv rp cfg (iterate W rp cfg n (init cfg fs)).
Proof.
  apply iterate_invariant; [apply step_trace_inv | apply init_trace_inv].
Qed.

Lemma reachable_entry_ok (fs : gset string) (n : nat) :
  Forall (entry_ok cfg) (queued (iterate W rp cfg n (init cfg fs))).
Proof.
  apply (iterate_invariant (λ s, Forall (entry_ok cfg) (queued s)));
    [apply step_entry_ok|].
  apply Forall_cons. split; [by left | apply Forall_nil_2].
Qed.

(** The visited set holds exactly the URLs taken off the frontier. *)
Lemma reachable_seen_dequeued (fs : gset string) (n : nat) (u : string) :
  u ∈ seen_pages (iterate W rp cfg n (init cfg fs))
  ↔ u ∈ dequeued (trace (iterate W rp cfg n (init cfg fs))).
Proof.
  revert u.
  apply (iterate_invariant
           (λ s, ∀ u, u ∈ seen_pages s ↔ u ∈ dequeued (trace s))).
  - intros s Hs u. destruct (queued s) as [|[url depth] rest] eqn:Hq.
    { rewrite step_nil by done. apply Hs. }
    destruct (step_effect s url depth rest Hq) as (-> & -> & _).
    rewrite elem_of_cons, elem_of_union, elem_of_singleton. by rewrite Hs.
  - intros u. simpl. set_solver.
Qed.

(** The loop on fuel returns the state the iterations reach. *)
Lemma crawl_loop_iterate (n : nat) (st : State) :
  queued (iterate W rp cfg n st) = [] →
  crawl_loop W rp cfg n st = Some (iterate W rp cfg n st).
Proof.
  revert st. induction n as [|n IH]; intros st Hq; simpl in *.
  - by rewrite Hq.
  - destruct (queued st) as [|e rest] eqn:Hst; [|by apply IH].
    f_equal. clear IH. assert (step W rp cfg st = st) as Hfix.
    { by apply step_nil. }
    rewrite Hfix. clear Hq. induction n as [|n IH]; [done|].
    simpl. by rewrite Hfix.
Qed.

Lemma crawl_loop_some (fuel : nat) (st st' : State) :
  crawl_loop W rp cfg fuel st = Some st' →
  queued st' = [] ∧ ∃ n, (n ≤ fuel)%nat ∧ st' = iterate W rp cfg n st.
Proof.
  revert st. induction fuel as [|fuel IH]; intros st H; simpl in H.
  - destruct (queued st) eqn:Hq; [|done]. simplify_eq.
    split; [done|]. by exists 0%nat.
  - destruct (queued st) eqn:Hq.
    + simplify_eq. split; [done|]. exists 0%nat. split; [lia|done].
    + destruct (IH _ H) as (Hq' & n & Hn & ->).
      split; [done|]. exists (S n). split; [lia|done].
Qed.

(** *** Termination

    An entry at depth [d] carries the budget [max_depth - d]. An
    iteration takes the head off the frontier and appends entries of
    strictly smaller budget, so one pass over the frontier lowers the
    largest budget, whatever the pages link to. *)

Lemma iterate_add (n m : nat) (st : State) :
  iterate W rp cfg (n + m) st = iterate W rp cfg m (iterate W rp cfg n st).
Proof.
  revert st. induction n as [|n IH]; intros st; [done|]. simpl. apply IH.
Qed.

Lemma step_weights (st : State) (w : nat) (ws : list nat) :
  weights cfg st = w :: ws →
  ∃ news, weights cfg (step W rp cfg st) = ws ++ news
    ∧ Forall (λ w', S w' = w) news.
Proof.
  unfold weights. intros Hw.
  destruct (queued st) as [|[url depth] rest] eqn:Hq; [done|].
  simpl in Hw. injection Hw as <- <-.
  destruct (step_effect st url depth rest Hq)
    as (_ & _ & (new & -> & Hnew) & _).
  exists ((λ e : string * Z, weight cfg e.2) <$> new).
  rewrite fmap_app. split; [done|].
  apply Forall_fmap. eapply Forall_impl; [exact Hnew|].
  intros [u d] (Hd & Hlt & _). simpl in *. unfold weight. lia.
Qed.

(** One pass over the part [l1] of the frontier whose budget may still
    be [k]. *)
Lemma pass_lowers_budget (k : nat) (l1 : list nat) :
  ∀ (st : State) (l2 : list nat),
    weights cfg st = l1 ++ l2 →
    Forall (λ w, (w ≤ k)%nat) l1 →
    Forall (λ w, (S w ≤ k)%nat) l2 →
    ∃ n, Forall (λ w, (S w ≤ k)%nat) (weights cfg (iterate W rp cfg n st)).
Proof.
  induction l1 as [|w l1 IH]; intros st l2 Hw H1 H2.
  - exists 0%nat. simpl. by rewrite Hw.
  - apply Forall_cons in H1 as [Hwk H1].
    destruct (step_weights st w (l1 ++ l2) Hw) as (news & Hstep & Hnews).
    destruct (IH (step W rp cfg st) (l2 ++ news)) as [n Hn].
    + by rewrite Hstep, app_assoc.
    + done.
    + apply Forall_app. split; [done|].
      eapply Forall_impl; [exact Hnews|]. intros w' Hw'. simpl in Hw'. lia.
    + by exists (S n).
Qed.

Lemma terminates_within_budget (k : nat) :
  ∀ st : State,
    Forall (λ w, (w ≤ k)%nat) (weights cfg st) →
    ∃ n, queued (iterate W rp cfg n st) = [].
Proof.
  induction k as [|k IH]; intros st Hk.
  - destruct (pass_lowers_budget 0 (weights cfg st) st [])
      as [n Hn]; [by rewrite app_nil_r | done | apply Forall_nil_2 |].
    exists n. unfold weights in Hn.
    destruct (queued (iterate W rp cfg n st)) as [|e q]; [done|].
    apply Forall_cons in Hn as [Hn _]. lia.
  - destruct (pass_lowers_budget (S k) (weights cfg st) st [])
      as [n Hn]; [by rewrite app_nil_r | done | apply Forall_nil_2 |].
    destruct (IH (iterate W rp cfg n st)) as [m Hm].
    + eapply Forall_impl; [exact Hn|]. intros w Hw. simpl in Hw. lia.
    + exists (n + m)%nat. by rewrite iterate_add.
Qed.

(** The loop ends from every state. *)
Lemma crawl_loop_terminates (st : State) :
  ∃ fuel st', crawl_loop W rp cfg fuel st = Some st'.
Proof.
  destruct (terminates_within_budget (max_list (weights cfg st)) st)
    as [n Hn].
  - apply Forall_forall. intros w Hw. by apply max_list_elem_of_le.
  - exists n, (iterate W rp cfg n st). by apply crawl_loop_iterate.
Qed.



End CrawlFacts.

(** ** The document links of a fetched page *)

Section DocumentLinks.

Variable W : World.
Variable rp : RobotFileParser.
Variable cfg : Config.














End DocumentLinks.

(** ** The claims about the crawl *)

Lemma in_scope_spec (cfg : Config) (url : string) :
  in_scope cfg url = true
  ↔ is_same_site url (start_url cfg) = true
    ∧ if same_path_only cfg
      then is_under_base_path url (start_url cfg) = true else True.
Proof.
  unfold in_scope. rewrite andb_true_iff.
  destruct (same_path_only cfg); simpl; [done|]. split; by intros [? _].
Qed.

(** C4. In every state the crawl reaches, and in the state it returns,
    no URL occurs twice among the downloads issued: a download is issued
    exactly when the URL enters the set of found documents. *)
Theorem download_at_most_once
    (W : World) (rp : RobotFileParser) (cfg : Config)
    (fs : gset string) (n fuel : nat) :
  let st := iterate W rp cfg n (init cfg fs) in
  NoDup (files_fetched (trace st))
  ∧ (∀ u, u ∈ files_fetched (trace st) ↔ u ∈ found_pdfs st)
  ∧ match crawl_and_download W rp cfg fuel fs with
    | Some st' => NoDup (files_fetched (trace st'))
    | None => True
    end.
Proof.
  cbv zeta. destruct (reachable_trace_inv W rp cfg fs n) as [_ H2 _ H4 _].
  split; [done|]. split; [done|].
  destruct (crawl_and_download W rp cfg fuel fs) as [st'|] eqn:Hrun; [|done].
  apply crawl_loop_some in Hrun as (_ & m & _ & ->).
  apply (reachable_trace_inv W rp cfg fs m).
Qed.

(** C10. In every state the crawl reaches, a frontier entry is the seed
    at depth 0, or has a depth between 1 and the maximum depth and a URL
    on the host of the start URL that, when same-path-only is set, is
    under the path of the start URL. *)
Theorem frontier_entries_in_scope
    (W : World) (rp : RobotFileParser) (cfg : Config)
    (fs : gset string) (n : nat) :
  Forall (λ e : string * Z,
            e = (start_url cfg, 0)
            ∨ (1 ≤ e.2 ≤ max_depth cfg
               ∧ is_same_site e.1 (start_url cfg) = true
               ∧ if same_path_only cfg
                 then is_under_base_path e.1 (start_url cfg) = true
                 else True))
         (queued (iterate W rp cfg n (init cfg fs))).
Proof.
  eapply Forall_impl; [apply (reachable_entry_ok W rp cfg fs n)|].
  intros e [He|[Hd Hscope]]; [by left|]. right.
  by apply in_scope_spec in Hscope.
Qed.



(** C5, as stated, fails: a URL can be taken off the frontier twice. The
    seed links to A and B and A links to B; B is put on the frontier by
    the seed and again by A, before B is visited, and is dequeued
    twice. *)
Lemma url_dequeued_twice :
  (λ st, (dequeued (history st), pages_fetched (history st)))
    <$> crawl_and_download Scenario.diamond Scenario.rp_open
          Scenario.cfg_default 4 ∅
  = Some ([Scenario.seed; Scenario.page_a; Scenario.page_b; Scenario.page_b],
          [Scenario.seed; Scenario.page_a; Scenario.page_b]).
Proof. vm_compute. reflexivity. Qed.

(** C5, amended: the crawl loop ends on every link graph. A URL can be
    taken off the frontier more than once, but an iteration whose URL is
    already in the visited set only removes the entry; so no page is
    fetched (and expanded) twice, and the visited set holds exactly the
    URLs that were dequeued. When the seed links to a page that links
    back to the seed, each is dequeued and fetched once. *)
Theorem crawl_terminates_each_page_once :
  (∀ (W : World) (rp : RobotFileParser) (cfg : Config) (fs : gset string),
     (∃ fuel st, crawl_and_download W rp cfg fuel fs = Some st)
     ∧ (∀ n : nat,
          let st := iterate W rp cfg n (init cfg fs) in
          NoDup (pages_fetched (trace st))
          ∧ ∀ u, u ∈ seen_pages st ↔ u ∈ dequeued (trace st))
     ∧ (∀ (st : State) url depth rest,
          queued st = (url, depth) :: rest →
          url ∈ seen_pages st →
          step W rp cfg st = log (Dequeue url depth) (set_queued rest st)))
  ∧ (λ st, (dequeued (history st), pages_fetched (history st)))
      <$> crawl_and_download Scenario.cycle Scenario.rp_open
            Scenario.cfg_default 2 ∅
    = Some ([Scenario.seed; Scenario.page2],
            [Scenario.seed; Scenario.page2]).
Proof.
  split; [|vm_compute; reflexivity].
  intros W rp cfg fs. split; [apply crawl_loop_terminates|]. split.
  - intros n. cbv zeta. split.
    + apply (reachable_trace_inv W rp cfg fs n).
    + apply reachable_seen_dequeued.
  - intros st url depth rest Hq Hseen.
    destruct (step_cases W rp cfg st url depth rest Hq)
      as [[_ E]|[(Hnot & _)|(Hnot & _)]]; done.
Qed.

Lemma crawl_terminates_each_page_once_witness :
  step Scenario.diamond Scenario.rp_open Scenario.cfg_default
    (mkState {[Scenario.page_b]} [(Scenario.page_b, 2)] ∅ 0 0 ∅ [])
  = log (Dequeue Scenario.page_b 2)
      (set_queued []
         (mkState {[Scenario.page_b]} [(Scenario.page_b, 2)] ∅ 0 0 ∅ [])).
Proof.
  destruct crawl_terminates_each_page_once as [H _].
  destruct (H Scenario.diamond Scenario.rp_open Scenario.cfg_default ∅)
    as (_ & _ & Hskip).
  apply (Hskip (mkState {[Scenario.page_b]} [(Scenario.page_b, 2)] ∅ 0 0 ∅ [])
           Scenario.page_b 2 []); [reflexivity|].
  cbn [seen_pages]. apply elem_of_singleton_2. reflexivity.
Defined.

(** C1, as stated, fails: in the end-to-end scenario the link on the
    external host is out of scope, and it is probed with a HEAD request;
    and a PDF link on an external host is downloaded. *)
Lemma external_link_is_probed :
  is_same_site Scenario.external Scenario.seed = false
  ∧ is_same_site Scenario.external_pdf Scenario.seed = false
  ∧ (λ st, probed (history st))
      <$> crawl_and_download Scenario.end_to_end Scenario.rp_open
            Scenario.cfg_default 2 ∅
    = Some [Scenario.page2; Scenario.external]
  ∧ (λ st, files_fetched (history st))
      <$> crawl_and_download Scenario.with_external_pdf Scenario.rp_open
            Scenario.cfg_default 1 ∅
    = Some [Scenario.doc_a; Scenario.external_pdf].
Proof. repeat split; vm_compute; reflexivity. Qed.

(** C1, amended: every page the crawl fetches passed the scope check
    (same host, and under the base path when same-path-only is set) and
    the exclusion-policy check before the fetch; every document it
    downloads passed the exclusion-policy check before the download. In
    the end-to-end scenario with depth 2 and same-path-only set, the
    summary reports 2 pages, 2 documents found and 2 downloaded, and the
    external link is neither fetched as a page nor downloaded. *)
Theorem pages_checked_documents_policy_only :
  (∀ (W : World) (rp : RobotFileParser) (cfg : Config)
     (fs : gset string) (n : nat),
     let st := iterate W rp cfg n (init cfg fs) in
     Forall (λ u, is_same_site u (start_url cfg) = true
                  ∧ (if same_path_only cfg
                     then is_under_base_path u (start_url cfg) = true
                     else True)
                  ∧ allowed_by_robots rp u = true)
            (pages_fetched (trace st))
     ∧ Forall (λ u, allowed_by_robots rp u = true)
              (files_fetched (trace st)))
  ∧ (λ st, (summary st, pages_fetched (history st),
            files_fetched (history st)))
      <$> crawl_and_download Scenario.end_to_end Scenario.rp_open
            Scenario.cfg_default 2 ∅
    = Some (mkSummary 2 4 2 2,
            [Scenario.seed; Scenario.page2],
            [Scenario.doc_a; Scenario.doc_b]).
Proof.
  split; [|vm_compute; reflexivity].
  intros W rp cfg fs n. cbv zeta.
  destruct (reachable_trace_inv W rp cfg fs n) as [_ _ H3 H4 H5]. split.
  - eapply Forall_impl; [exact H3|]. intros u (_ & Hscope & Hallow).
    apply in_scope_spec in Hscope as [? ?]. done.
  - apply Forall_forall. intros u Hu. apply H5. by apply H4.
Qed.

(** C3, as stated, fails: the seed links to a page the policy
    disallows; the page is never fetched, and the summary counts it among
    the two pages visited. *)
Lemma disallowed_page_is_counted :
  allowed_by_robots Scenario.rp_private Scenario.private = false
  ∧ (λ st, (pages_visited (summary st),
            bool_decide (Scenario.private ∈ seen_pages st),
            pages_fetched (history st)))
      <$> crawl_and_download Scenario.with_private Scenario.rp_private
            Scenario.cfg_default 2 ∅
    = Some (2%nat, true, [Scenario.seed]).
Proof. split; vm_compute; reflexivity. Qed.

(** C3, amended: a URL the exclusion policy disallows is never fetched
    as a page, never downloaded and never among the documents found; it
    is counted among the pages visited exactly when it was taken off the
    frontier, since the visited set is updated before the checks. *)
Theorem disallowed_url_never_fetched
    (W : World) (rp : RobotFileParser) (cfg : Config)
    (fs : gset string) (n : nat) (u : string) :
  allowed_by_robots rp u = false →
  let st := iterate W rp cfg n (init cfg fs) in
  (u ∉ pages_fetched (trace st))
  ∧ (u ∉ files_fetched (trace st))
  ∧ (u ∉ found_pdfs st)
  ∧ (u ∈ seen_pages st ↔ u ∈ dequeued (trace st)).
Proof.
  intros Hdeny. cbv zeta.
  destruct (reachable_trace_inv W rp cfg fs n) as [_ _ H3 H4 H5].
  assert (u ∉ found_pdfs (iterate W rp cfg n (init cfg fs))) as Hfound.
  { intros Hu. apply H5 in Hu. congruence. }
  split_and!; try done.
  - intros Hu. rewrite Forall_forall in H3.
    destruct (H3 u Hu) as (_ & _ & Hallow). congruence.
  - by rewrite H4.
  - apply reachable_seen_dequeued.
Qed.

Lemma disallowed_url_never_fetched_witness :
  let st := iterate Scenario.with_private Scenario.rp_private
              Scenario.cfg_default 2 (init Scenario.cfg_default ∅) in
  (Scenario.private ∉ pages_fetched (trace st))
  ∧ (Scenario.private ∉ files_fetched (trace st))
  ∧ (Scenario.private ∉ found_pdfs st)
  ∧ (Scenario.private ∈ seen_pages st
     ↔ Scenario.private ∈ dequeued (trace st)).
Proof.
  apply (disallowed_url_never_fetched Scenario.with_private
           Scenario.rp_private Scenario.cfg_default ∅ 2 Scenario.private).
  vm_compute. reflexivity.
Defined.

(** C6 fails on the code. When reading robots.txt raises (the host
    cannot be reached, say), [load_robots] returns a parser that has read
    nothing: it contributes no delay, so that the configured delay is the
    one enforced, and it denies every URL, so the crawl dequeues the seed
    and fetches nothing. A server error (a 5xx status) has the same
    effect. *)
Theorem load_robots_failure_denies_all :
  (∀ url, allowed_by_robots (load_robots Raised) url = false)
  ∧ (∀ url, allowed_by_robots (load_robots (HTTPError 503)) url = false)
  ∧ robots_crawl_delay (load_robots Raised) = 0
  ∧ (∀ cfg : Config,
       enforced_delay (load_robots Raised) cfg
       = if Qle_bool 0 (delay cfg) then delay cfg else 0%Q)
  ∧ (∀ (W : World) (cfg : Config) (fs : gset string),
       (λ st, (history st, summary st))
         <$> crawl_and_download W (load_robots Raised) cfg 1 fs
       = Some ([Dequeue (start_url cfg) 0], mkSummary 1 0 0 0)).
Proof.
  split; [done|]. split; [done|]. split; [done|]. split; [done|].
  intros W cfg fs.
  assert (queued (init cfg fs) = (start_url cfg, 0) :: []) as Hq by done.
  destruct (step_cases W (load_robots Raised) cfg _ _ _ _ Hq)
    as [[Hin _]|[(_ & _ & E)|(_ & _ & Hallow & _)]].
  - by apply not_elem_of_empty in Hin.
  - unfold crawl_and_download.
    rewrite (crawl_loop_iterate W (load_robots Raised) cfg 1);
      cbn [iterate]; rewrite E; [|done].
    unfold history, summary, add_seen, log, set_queued, init.
    cbn [seen_pages found_pdfs downloaded checked_links trace
         fmap option_fmap option_map].
    by rewrite union_empty_r_L, size_singleton, size_empty.
  - done.
Qed.

(** * Further properties of the crawl *)

Section CrawlMore.

Variable W : World.
Variable rp : RobotFileParser.
Variable cfg : Config.

(** One round of the [for] loop ends in one of the outcomes. *)
Lemma visit_link_outcome (d : Z) (st : State) (link : string) :
  link_outcome rp cfg d st link (visit_link W rp cfg d st link).
Proof.
  assert (∀ st0 : State,
    st0 = count_link st
    ∨ (looks_like_pdf link = false
       ∧ st0 = log (HeadProbe link) (count_link st)) →
    allowed_by_robots rp link = true →
    link_outcome rp cfg d st link (found_pdf W rp cfg st0 link)) as Hfound.
  { intros st0 Hbase Hallow.
    assert (found_pdfs st0 = found_pdfs st ∧ files st0 = files st)
      as [Hf Hfs] by (by destruct Hbase as [->|[_ ->]]).
    unfold found_pdf. case_bool_decide as Hin.
    - destruct Hbase as [->|[Hext ->]]; [apply lo_skipped | by apply lo_probed].
    - rewrite Hf in Hin. unfold download_pdf.
      change (files (add_found link st0)) with (files st0). rewrite Hfs.
      pose proof (ensure_unique_path_fs_choice (files st)
                    (download_name link (out_dir cfg))) as (Hfree & _).
      destruct (get_file W _ link).
      + by apply lo_saved.
      + by apply lo_failed.
      + apply lo_failed; try done. apply union_subseteq_r. }
  unfold visit_link. destruct (looks_like_pdf link) eqn:Hext.
  - destruct (allowed_by_robots rp link) eqn:Hallow; simpl.
    + apply Hfound; [by left | done].
    + apply lo_skipped.
  - destruct (head_pdf W _ link).
    + destruct (allowed_by_robots rp link) eqn:Hallow; simpl.
      * apply Hfound; [by right | done].
      * by apply lo_probed.
    + unfold enqueue_page.
      destruct (d <? max_depth cfg) eqn:Hd; [|by apply lo_probed].
      apply Z.ltb_lt in Hd.
      destruct (is_same_site link (start_url cfg) && _) eqn:Hscope;
        [|by apply lo_probed].
      case_bool_decide as Hseen; [by apply lo_probed|].
      exact (lo_enqueued rp cfg d st link Hext Hd Hscope Hseen).
Qed.

(** A predicate kept by every outcome is kept by the [for] loop. *)
Lemma visit_links_preserves (P : State → Prop) (d : Z)
    (links : list string) (st : State) :
  (∀ s l s', P s → link_outcome rp cfg d s l s' → P s') →
  P st → P (visit_links W rp cfg d st links).
Proof.
  intros Hout. revert st.
  induction links as [|link links IH]; intros st Hst; [done|].
  apply IH. eapply Hout; [exact Hst | apply visit_link_outcome].
Qed.

(** An iteration keeps [P] when each of its parts keeps [Q depth], the
    form of [P] during the iteration of an entry at [depth]. *)
Lemma step_preserves (P : State → Prop) (Q : Z → State → Prop) (st : State) :
  (∀ s url depth rest,
     queued s = (url, depth) :: rest → P s →
     Q depth (log (Dequeue url depth) (set_queued rest s))) →
  (∀ d s url, Q d s → Q d (add_seen url s)) →
  (∀ d s url, Q d s → Q d (log (GetPage url) s)) →
  (∀ d s url,
     Q d s → Q d (log (Sleep (enforced_delay rp cfg)) (log (GetPage url) s))) →
  (∀ d s l s', Q d s → link_outcome rp cfg d s l s' → Q d s') →
  (∀ d s, Q d s → P s) →
  P st → P (step W rp cfg st).
Proof.
  intros Hdeq Hseen Hfail Hok Hlink Hend Hst.
  destruct (queued st) as [|[url depth] rest] eqn:Hq.
  { by rewrite step_nil. }
  specialize (Hdeq st url depth rest Hq Hst).
  destruct (step_cases W rp cfg st url depth rest Hq)
    as [[_ ->]|[(_ & _ & ->)|(_ & _ & _ & ->)]].
  - by apply (Hend depth).
  - apply (Hend depth). by apply Hseen.
  - apply (Hend depth). unfold visit_page.
    destruct (page_links W _ url) as [links|].
    + apply (visit_links_preserves (Q depth)); [apply Hlink|].
      apply Hok. by apply Hseen.
    + apply Hfail. by apply Hseen.
Qed.

Lemma reachable_polite_inv (fs : gset string) (n : nat) :
  polite_inv rp cfg (iterate W rp cfg n (init cfg fs)).
Proof.
  apply iterate_invariant.
  - intros st Hst.
    apply (step_preserves (polite_inv rp cfg) (λ _, polite_inv rp cfg));
      try done.
    + by intros s url depth rest _ [H1 H2 H3].
    + by intros _ s url [H1 H2 H3].
    + by intros _ s url [H1 H2 H3].
    + intros _ s url [H1 H2 H3]. constructor; simpl; try done.
      by apply Forall_cons.
    + intros d s l s' [H1 H2 H3] Hout.
      destruct Hout as [|Hext|Hext _ _ _|st0 t Hbase _ _ _|st0 fs' Hbase _ _ _];
        try (destruct Hbase as [->|[Hext ->]]);
        constructor; simpl; try done;
        try (by apply Forall_cons).
  - constructor; simpl; try done; apply Forall_nil_2.
Qed.

Lemma reachable_counters_inv (fs : gset string) (n : nat) :
  counters_inv fs (iterate W rp cfg n (init cfg fs)).
Proof.
  apply iterate_invariant.
  - intros st Hst.
    apply (step_preserves (counters_inv fs) (λ _, counters_inv fs));
      try done.
    + by intros s url depth rest _ [H1 H2 H3 H4 H5 H6].
    + by intros _ s url [H1 H2 H3 H4 H5 H6].
    + by intros _ s url [H1 H2 H3 H4 H5 H6].
    + intros _ s url [H1 H2 H3 H4 H5 H6]. by constructor.
    + intros d s l s' [H1 H2 H3 H4 H5 H6] Hout.
      destruct Hout as [|Hext|Hext _ _ _|st0 t Hbase _ _ Ht|st0 fs' Hbase _ _ Hfs];
        try (destruct Hbase as [->|[Hext ->]]);
        constructor; simpl in *; try lia; try done;
        try (by apply union_subseteq_r');
        try (by etrans);
        try (rewrite size_union by (by apply disjoint_singleton_l);
             rewrite size_singleton; lia);
        try (apply subseteq_size in Hfs; lia).
  - constructor; simpl; try done; lia.
Qed.

Lemma reachable_bfs_inv (fs : gset string) (n : nat) :
  bfs_inv (iterate W rp cfg n (init cfg fs)).
Proof.
  apply iterate_invariant.
  - intros st Hst.
    apply (step_preserves bfs_inv
             (λ dh s, ∃ q1 q2 : list Z,
                (snd <$> queued s) = q1 ++ q2
                ∧ Forall (λ x, x = dh) q1
                ∧ Forall (λ x, x = dh + 1) q2
                ∧ Forall (λ x, x ≤ dh) (dequeue_depths (trace s))
                ∧ StronglySorted (λ a b, b ≤ a) (dequeue_depths (trace s))));
      try done.
    + intros s url depth rest Hq (d & q1 & q2 & Hqs & H1 & H2 & Hle & Hsorted).
      rewrite Hq in Hqs. simpl in Hqs. simpl.
      destruct q1 as [|x q1].
      * destruct q2 as [|x q2]; [done|]. simpl in Hqs.
        injection Hqs as <- Hrest. apply Forall_cons in H2 as [-> H2].
        exists q2, []. rewrite app_nil_r.
        split_and!; try done; try apply Forall_nil_2.
        -- apply Forall_cons. split; [lia|].
           eapply Forall_impl; [exact Hle|]. intros x Hx. simpl in Hx. lia.
        -- apply SSorted_cons; [done|].
           eapply Forall_impl; [exact Hle|]. intros x Hx. simpl in Hx. lia.
      * simpl in Hqs. injection Hqs as <- Hrest.
        apply Forall_cons in H1 as [-> H1].
        exists q1, q2. split_and!; try done.
        -- apply Forall_cons. split; [lia | done].
        -- by apply SSorted_cons.
    + intros dh s l s' (q1 & q2 & Hqs & H1 & H2 & Hle & Hsorted) Hout.
      destruct Hout as [|Hext|Hext _ _ _|st0 t Hbase _ _ _|st0 fs' Hbase _ _ _];
        try (destruct Hbase as [->|[Hext ->]]); simpl;
        try (by exists q1, q2).
      exists q1, (q2 ++ [dh + 1]).
      rewrite fmap_app, Hqs, app_assoc. split_and!; try done.
      apply Forall_app. split; [done|].
      apply Forall_cons. split; [done | apply Forall_nil_2].
    + intros dh s (q1 & q2 & H). by exists dh, q1, q2.
  - exists 0, [0], []. simpl. split_and!; try done.
    + apply Forall_cons. split; [done | apply Forall_nil_2].
    + apply SSorted_nil.
Qed.

End CrawlMore.

Lemma omap_rev {A B} (f : A → option B) (l : list A) :
  omap f (rev l) = rev (omap f l).
Proof.
  induction l as [|x l IH]; [done|]. simpl.
  rewrite omap_app, IH. csimpl.
  destruct (f x); simpl; by rewrite ?app_nil_r.
Qed.

Lemma StronglySorted_rev {A} (R : relation A) (l : list A) :
  StronglySorted (λ a b, R b a) l → StronglySorted R (rev l).
Proof.
  induction 1 as [|a l Hl IH Ha]; simpl; [apply SSorted_nil|].
  apply StronglySorted_app_2; [|done|].
  - intros x1 x2 Hx1 ->%list_elem_of_singleton.
    rewrite Forall_forall in Ha. apply Ha.
    apply list_elem_of_In. apply in_rev. by apply list_elem_of_In.
  - apply SSorted_cons; [apply SSorted_nil | apply Forall_nil_2].
Qed.

(** Pages are taken off the frontier in breadth-first order: the depths
    of the dequeued entries never decrease during the crawl, and the
    frontier itself is sorted by depth and holds at most two consecutive
    depths, none below a depth already dequeued. *)
Theorem crawl_is_breadth_first
    (W : World) (rp : RobotFileParser) (cfg : Config)
    (fs : gset string) (n : nat) :
  let st := iterate W rp cfg n (init cfg fs) in
  StronglySorted Z.le (dequeue_depths (history st))
  ∧ StronglySorted Z.le (snd <$> queued st)
  ∧ ∃ d : Z,
      Forall (λ x, x ≤ d) (dequeue_depths (history st))
      ∧ Forall (λ e : string * Z, e.2 = d ∨ e.2 = d + 1) (queued st).
Proof.
  cbv zeta.
  destruct (reachable_bfs_inv W rp cfg fs n)
    as (d & q1 & q2 & Hqs & H1 & H2 & Hle & Hsorted).
  unfold history, dequeue_depths in *. rewrite omap_rev.
  rewrite Forall_forall in H1. rewrite Forall_forall in H2.
  split; [by apply StronglySorted_rev|]. split.
  - rewrite Hqs. apply StronglySorted_app_2.
    + intros x1 x2 Hx1 Hx2. rewrite (H1 x1 Hx1), (H2 x2 Hx2). lia.
    + clear Hqs. induction q1 as [|x q1 IH]; [apply SSorted_nil|].
      apply SSorted_cons.
      * apply IH. intros y Hy. apply H1. by apply list_elem_of_further.
      * apply Forall_forall. intros y Hy.
        rewrite (H1 x), (H1 y); [lia | by apply list_elem_of_further
                                 | apply list_elem_of_here].
    + clear Hqs. induction q2 as [|x q2 IH]; [apply SSorted_nil|].
      apply SSorted_cons.
      * apply IH. intros y Hy. apply H2. by apply list_elem_of_further.
      * apply Forall_forall. intros y Hy.
        rewrite (H2 x), (H2 y); [lia | by apply list_elem_of_further
                                 | apply list_elem_of_here].
  - exists d. split.
    + apply Forall_forall. intros x Hx.
      rewrite Forall_forall in Hle. apply Hle.
      apply list_elem_of_In. apply in_rev. by apply list_elem_of_In.
    + apply Forall_forall. intros e He.
      assert (e.2 ∈ q1 ++ q2) as Hin.
      { rewrite <- Hqs. apply list_elem_of_fmap. by exists e. }
      apply elem_of_app in Hin as [Hin|Hin]; [left; by apply H1|right; by apply H2].
Qed.

Lemma size_of_listing (X : gset string) (l : list string) :
  NoDup l → (∀ u, u ∈ l ↔ u ∈ X) → size X = length l.
Proof.
  intros Hnd Hl. rewrite <- (size_list_to_set (C:=gset string) l Hnd).
  f_equal. apply set_eq. intros u. rewrite elem_of_list_to_set. by rewrite Hl.
Qed.

(** The counters of the summary are ordered: the downloads counted are
    at most the documents found, which are as many as the download
    requests issued and at most the links checked; the pages fetched are
    at most the pages visited. *)
Theorem summary_counters_ordered
    (W : World) (rp : RobotFileParser) (cfg : Config)
    (fs : gset string) (n : nat) :
  let st := iterate W rp cfg n (init cfg fs) in
  let s := summary st in
  0 ≤ downloaded_count s ≤ Z.of_nat (pdfs_found s)
  ∧ Z.of_nat (pdfs_found s) ≤ links_checked s
  ∧ pdfs_found s = length (files_fetched (trace st))
  ∧ (length (pages_fetched (trace st)) ≤ pages_visited s)%nat
  ∧ Z.of_nat (length (probed (trace st))) ≤ links_checked s.
Proof.
  cbv zeta. unfold summary. simpl.
  destruct (reachable_counters_inv W rp cfg fs n) as [H1 _ H3 H4 _ _].
  destruct (reachable_trace_inv W rp cfg fs n) as [Hp Hf Hseen Hfound _].
  rewrite (size_of_listing _ _ Hf Hfound).
  split_and!; try done; try lia.
  assert (pages_fetched (trace (iterate W rp cfg n (init cfg fs)))
          ⊆+ elements (seen_pages (iterate W rp cfg n (init cfg fs)))) as Hsub.
  { apply NoDup_submseteq; [done|]. intros u Hu.
    rewrite Forall_forall in Hseen. apply elem_of_elements.
    by destruct (Hseen u Hu). }
  by apply submseteq_length in Hsub.
Qed.

(** The crawl removes no file, and every download it counts added a
    file of its own to the ones that were there. *)
Theorem counted_downloads_add_files
    (W : World) (rp : RobotFileParser) (cfg : Config)
    (fs : gset string) (n : nat) :
  let st := iterate W rp cfg n (init cfg fs) in
  fs ⊆ files st
  ∧ Z.of_nat (size fs) + downloaded st ≤ Z.of_nat (size (files st)).
Proof.
  cbv zeta. by destruct (reachable_counters_inv W rp cfg fs n).
Qed.

(** The enforced delay is the larger of the configured delay and the
    crawl delay of the robots parser: it is one of the two and not below
    either. *)
Lemma enforced_delay_is_max (rp : RobotFileParser) (cfg : Config) :
  (delay cfg <= enforced_delay rp cfg)%Q
  ∧ (inject_Z (robots_crawl_delay rp) <= enforced_delay rp cfg)%Q
  ∧ (enforced_delay rp cfg = delay cfg
     ∨ enforced_delay rp cfg = inject_Z (robots_crawl_delay rp)).
Proof.
  unfold enforced_delay, py_max.
  destruct (Qle_bool (inject_Z (robots_crawl_delay rp)) (delay cfg)) eqn:Hle.
  - apply Qle_bool_iff in Hle. split_and!; [apply Qle_refl | done | by left].
  - assert (¬ (inject_Z (robots_crawl_delay rp) <= delay cfg)%Q) as Hnle.
    { intros H. apply Qle_bool_iff in H. congruence. }
    apply Qnot_le_lt in Hnle.
    split_and!; [by apply Qlt_le_weak | apply Qle_refl | by right].
Qed.

(** The crawl sleeps only right after a GET, and then for the enforced
    delay, which is not below the configured delay nor below the crawl
    delay of robots.txt; in particular it never sleeps after a HEAD probe.
    The downloads counted are the file GETs that were followed by a
    sleep. *)
Theorem sleeps_only_after_gets
    (W : World) (rp : RobotFileParser) (cfg : Config)
    (fs : gset string) (n : nat) :
  let st := iterate W rp cfg n (init cfg fs) in
  Forall (λ d, d = enforced_delay rp cfg
               ∧ (delay cfg <= d)%Q
               ∧ (inject_Z (robots_crawl_delay rp) <= d)%Q)
         (sleeps (trace st))
  ∧ sleeps_follow_gets (trace st) = true
  ∧ downloaded st = Z.of_nat (completed_downloads (trace st)).
Proof.
  cbv zeta. destruct (reachable_polite_inv W rp cfg fs n) as [H1 H2 _].
  destruct (reachable_counters_inv W rp cfg fs n) as [_ H3 _ _ _ _].
  split_and!; try done.
  eapply Forall_impl; [exact H1|]. intros d ->.
  destruct (enforced_delay_is_max rp cfg) as (? & ? & _). done.
Qed.

(** A link whose path ends in [.pdf] is never probed with a HEAD
    request. *)
Theorem pdf_extension_is_not_probed
    (W : World) (rp : RobotFileParser) (cfg : Config)
    (fs : gset string) (n : nat) :
  Forall (λ u, looks_like_pdf u = false)
         (probed (trace (iterate W rp cfg n (init cfg fs)))).
Proof. by destruct (reachable_polite_inv W rp cfg fs n). Qed.

(** * Further properties of the scope policy and of filenames *)

Section MoreStringFacts.
Import PyStr.

Lemma str_drop_app_length (a b : string) :
  str_drop (String.length a) (a +:+ b) = b.
Proof.
  induction a as [|c a IH]; [by destruct b|]. by rewrite str_app_cons.
Qed.

Lemma endswith_spec (s p : string) :
  endswith s p = true ↔ ∃ stem, s = stem +:+ p.
Proof.
  unfold endswith. rewrite andb_true_iff, Nat.leb_le, String.eqb_eq. split.
  - intros [_ Hp]. exists (str_take (String.length s - String.length p) s).
    remember (String.length s - String.length p)%nat as k.
    rewrite <- Hp. symmetry. apply str_take_drop.
  - intros [stem ->]. rewrite length_str_app. split; [lia|].
    replace (String.length stem + String.length p - String.length p)%nat
      with (String.length stem) by lia.
    apply str_drop_app_length.
Qed.

Lemma map_chars_app (f : ascii → ascii) (a b : string) :
  map_chars f (a +:+ b) = map_chars f a +:+ map_chars f b.
Proof.
  induction a as [|c a IH]; [done|].
  rewrite str_app_cons. simpl. by rewrite str_app_cons, IH.
Qed.

Lemma map_chars_app_inv (f : ascii → ascii) (s a b : string) :
  map_chars f s = a +:+ b →
  ∃ s1 s2, s = s1 +:+ s2 ∧ map_chars f s1 = a ∧ map_chars f s2 = b.
Proof.
  revert s. induction a as [|c a IH]; intros s H.
  - by exists "", s.
  - rewrite str_app_cons in H. destruct s as [|d s]; [done|].
    simpl in H. injection H as Hc H.
    destruct (IH s H) as (s1 & s2 & -> & H1 & H2).
    exists (String d s1), s2. rewrite str_app_cons. simpl.
    by rewrite Hc, H1.
Qed.

Lemma all_chars_map_chars (p : ascii → bool) (f : ascii → ascii) (s : string) :
  (∀ c, p (f c) = true) → all_chars p (map_chars f s) = true.
Proof.
  intros Hf. induction s as [|c s IH]; [done|]. simpl. by rewrite Hf, IH.
Qed.

Lemma all_chars_str_drop (p : ascii → bool) (n : nat) (s : string) :
  all_chars p s = true → all_chars p (str_drop n s) = true.
Proof.
  revert s. induction n as [|n IH]; intros [|c s] H; simpl; try done.
  apply IH. simpl in H. by apply andb_true_iff in H as [_ H].
Qed.

Lemma map_chars_fixed (p : ascii → bool) (f : ascii → ascii) (s : string) :
  (∀ c, p c = true → f c = c) → all_chars p s = true → map_chars f s = s.
Proof.
  intros Hf. induction s as [|c s IH]; [done|]. simpl.
  intros [Hc Hs]%andb_true_iff. by rewrite (Hf c Hc), IH.
Qed.

Lemma all_chars_no_char (p : ascii → bool) (c : ascii) (s : string) :
  p c = false → all_chars p s = true → has_char c s = false.
Proof.
  intros Hc. unfold has_char. induction s as [|d s IH]; [done|]. simpl.
  intros [Hd Hs]%andb_true_iff. rewrite (IH Hs), orb_false_r.
  destruct (Ascii.eqb c d) eqn:E; [|done].
  apply Ascii.eqb_eq in E as ->. congruence.
Qed.

Lemma has_char_app (c : ascii) (a b : string) :
  has_char c (a +:+ b) = has_char c a || has_char c b.
Proof.
  unfold has_char. induction a as [|d a IH]; [done|].
  rewrite str_app_cons. simpl. by rewrite IH, orb_assoc.
Qed.

Lemma str_rfind_absent (c : ascii) (s : string) :
  has_char c s = false → str_rfind c s = -1.
Proof.
  unfold has_char. induction s as [|d s IH]; [done|]. simpl.
  intros [Hd Hs]%orb_false_iff. by rewrite (IH Hs), Hd.
Qed.


(** The last occurrence splits the string, and nothing after it is [c]. *)
Lemma str_rfind_found (c : ascii) (s : string) :
  0 ≤ str_rfind c s →
  ∃ a b, s = a +:+ String c b ∧ has_char c b = false
         ∧ str_rfind c s = Z.of_nat (String.length a).
Proof.
  induction s as [|d s IH]; [simpl; lia|]. simpl.
  destruct (0 <=? str_rfind c s) eqn:E.
  - apply Z.leb_le in E. intros _.
    destruct (IH E) as (a & b & -> & Hb & Hr).
    exists (String d a), b. rewrite str_app_cons. split_and!; try done.
    rewrite Hr. simpl String.length. lia.
  - apply Z.leb_gt in E. destruct (Ascii.eqb c d) eqn:Hcd; [|lia].
    apply Ascii.eqb_eq in Hcd as <-. intros _.
    exists "", s. rewrite str_app_nil. split_and!; try done.
    unfold has_char. clear IH.
    induction s as [|e s IH]; [done|]. simpl in *.
    destruct (0 <=? str_rfind c s) eqn:E'.
    + apply Z.leb_le in E'. lia.
    + destruct (Ascii.eqb c e); [lia|]. simpl. apply IH. lia.
Qed.

Lemma str_take_app_length (a b : string) :
  str_take (String.length a) (a +:+ b) = a.
Proof.
  induction a as [|c a IH]; [by destruct b|].
  rewrite str_app_cons. simpl. by rewrite IH.
Qed.

End MoreStringFacts.

Lemma lower_char_pdf (c : ascii) :
  Ascii.eqb (lower_char c) "." = Ascii.eqb c "."
  ∧ Ascii.eqb (lower_char c) "p" = Ascii.eqb c "p" || Ascii.eqb c "P"
  ∧ Ascii.eqb (lower_char c) "d" = Ascii.eqb c "d" || Ascii.eqb c "D"
  ∧ Ascii.eqb (lower_char c) "f" = Ascii.eqb c "f" || Ascii.eqb c "F".
Proof. destruct c as [[] [] [] [] [] [] [] []]; vm_compute; done. Qed.

Lemma lower_char_is (c : ascii) :
  (lower_char c = "."%char ↔ c = "."%char)
  ∧ (lower_char c = "p"%char ↔ c = "p"%char ∨ c = "P"%char)
  ∧ (lower_char c = "d"%char ↔ c = "d"%char ∨ c = "D"%char)
  ∧ (lower_char c = "f"%char ↔ c = "f"%char ∨ c = "F"%char).
Proof.
  destruct (lower_char_pdf c) as (H0 & H1 & H2 & H3).
  rewrite <- !Ascii.eqb_eq, <- !orb_true_iff. by rewrite H0, H1, H2, H3.
Qed.

(** [looks_like_pdf] holds exactly when the path of the URL (not its
    query or fragment) ends in a dot followed by the letters p, d, f, each
    in either case. *)
Theorem looks_like_pdf_spec (url : string) :
  looks_like_pdf url = true
  ↔ ∃ (stem : string) (a b c : ascii),
      path (urlparse url)
      = stem +:+ String "." (String a (String b (String c "")))
      ∧ (a = "p"%char ∨ a = "P"%char)
      ∧ (b = "d"%char ∨ b = "D"%char)
      ∧ (c = "f"%char ∨ c = "F"%char).
Proof.
  unfold looks_like_pdf, lower. rewrite endswith_spec. split.
  - intros [stem' H]. apply map_chars_app_inv in H as (s1 & s2 & Hp & _ & H2).
    destruct s2 as [|c0 [|a [|b [|c [|? ?]]]]]; try done.
    simpl in H2. injection H2 as H0 Ha Hb Hc.
    apply lower_char_is in H0 as ->. apply lower_char_is in Ha.
    apply lower_char_is in Hb. apply lower_char_is in Hc.
    by exists s1, a, b, c.
  - intros (stem & a & b & c & -> & Ha & Hb & Hc).
    exists (PyStr.map_chars lower_char stem). rewrite map_chars_app. simpl.
    apply lower_char_is in Ha as ->. apply lower_char_is in Hb as ->.
    by apply lower_char_is in Hc as ->.
Qed.

Lemma kept_char_fixed (c : ascii) :
  kept_char (if kept_char c then c else "_"%char) = true.
Proof. destruct (kept_char c) eqn:E; [done|]. reflexivity. Qed.

Lemma sanitize_filename_kept (name : string) :
  PyStr.all_chars kept_char (sanitize_filename name) = true
  ∧ (String.length (sanitize_filename name) ≤ 180)%nat.
Proof.
  unfold sanitize_filename.
  pose proof (all_chars_map_chars kept_char
                (λ c, if kept_char c then c else "_"%char) name
                kept_char_fixed) as Hall.
  destruct (180 <? _)%nat eqn:Hlen.
  - apply Nat.ltb_lt in Hlen. split; [by apply all_chars_str_drop|].
    rewrite length_str_drop. lia.
  - apply Nat.ltb_ge in Hlen. done.
Qed.

Lemma sanitize_filename_safe (name : string) :
  sanitize_filename (sanitize_filename name) = sanitize_filename name
  ∧ (String.length (sanitize_filename name) ≤ 180)%nat
  ∧ PyStr.all_chars kept_char (sanitize_filename name) = true
  ∧ PyStr.has_char "/" (sanitize_filename name) = false
  ∧ PyStr.has_char "000" (sanitize_filename name) = false
  ∧ (sanitize_filename name = "" ↔ name = "").
Proof.
  destruct (sanitize_filename_kept name) as [Hall Hlen].
  split_and!; try done.
  - unfold sanitize_filename at 1.
    rewrite (map_chars_fixed kept_char); [|by intros c ->|done].
    apply Nat.ltb_ge in Hlen. by rewrite Hlen.
  - by apply (all_chars_no_char kept_char).
  - by apply (all_chars_no_char kept_char).
  - split; [|by intros ->].
    intros E. apply (f_equal String.length) in E.
    unfold sanitize_filename in E.
    destruct (180 <? _)%nat eqn:Hcut.
    + apply Nat.ltb_lt in Hcut. rewrite length_str_drop in E. simpl in E. lia.
    + rewrite length_map_chars in E. by destruct name.
Qed.

(** Sanitising is idempotent, and its result is safe as a file name: at
    most 180 characters, each of them in the class the pattern keeps, so
    none is a path separator or a NUL; it is empty only for the empty
    name. *)
Theorem sanitize_filename_idempotent (name : string) :
  sanitize_filename (sanitize_filename name) = sanitize_filename name
  ∧ (String.length (sanitize_filename name) ≤ 180)%nat
  ∧ PyStr.all_chars kept_char (sanitize_filename name) = true
  ∧ PyStr.has_char "/" (sanitize_filename name) = false
  ∧ PyStr.has_char "000" (sanitize_filename name) = false
  ∧ (sanitize_filename name = "" ↔ name = "").
Proof. apply sanitize_filename_safe. Qed.

Lemma str_rfind_neg (c : ascii) (s : string) :
  str_rfind c s < 0 → PyStr.has_char c s = false.
Proof.
  unfold PyStr.has_char. induction s as [|d s IH]; [done|]. simpl.
  destruct (0 <=? str_rfind c s) eqn:E.
  - apply Z.leb_le in E. lia.
  - apply Z.leb_gt in E. destruct (Ascii.eqb c d); [lia|].
    intros _. simpl. by apply IH.
Qed.





Lemma str_rfind_lower_bound (c : ascii) (s : string) : -1 ≤ str_rfind c s.
Proof.
  induction s as [|d s IH]; [done|]. simpl.
  destruct (0 <=? str_rfind c s) eqn:E; [lia|].
  destruct (Ascii.eqb c d); lia.
Qed.

Lemma str_app_split (a a' x y : string) :
  a +:+ x = a' +:+ y →
  (String.length a' ≤ String.length a)%nat →
  ∃ m, a = a' +:+ m ∧ y = m +:+ x.
Proof.
  revert a. induction a' as [|c a' IH]; intros a H Hlen.
  - exists a. by rewrite !str_app_nil in *.
  - destruct a as [|d a]; [simpl in Hlen; lia|].
    rewrite !str_app_cons in H. injection H as -> H.
    destruct (IH a H) as (m & -> & ->); [simpl in Hlen; lia|].
    exists m. by rewrite str_app_cons.
Qed.

Lemma str_rfind_app_absent (c : ascii) (a y : string) :
  PyStr.has_char c y = false → str_rfind c (a +:+ y) = str_rfind c a.
Proof.
  intros Hy. induction a as [|d a IH].
  - rewrite str_app_nil. by apply str_rfind_absent.
  - rewrite str_app_cons. simpl. by rewrite IH.
Qed.

Lemma str_drop_app_le (n : nat) (a y : string) :
  (n ≤ String.length a)%nat → str_drop n (a +:+ y) = str_drop n a +:+ y.
Proof.
  revert a. induction n as [|n IH]; intros a Hn.
  - by destruct a, y.
  - destruct a as [|d a]; [simpl in Hn; lia|].
    rewrite str_app_cons. simpl. apply IH. simpl in Hn. lia.
Qed.

(** [splitext] cuts the path in two parts that give it back. The
    extension is empty, or it is a dot followed by characters that hold
    neither a dot nor a separator, and then the last component of the
    base does not consist of dots only (so a leading dot of a hidden file
    starts no extension). *)
Theorem splitext_spec (p : string) :
  let base := (OsPath.splitext p).1 in
  let ext := (OsPath.splitext p).2 in
  base +:+ ext = p
  ∧ (ext = ""
     ∨ ∃ e, ext = String "." e
            ∧ PyStr.has_char "." e = false
            ∧ PyStr.has_char "/" e = false
            ∧ PyStr.any_char (λ c, negb (Ascii.eqb c "."))
                (OsPath.basename base) = true).
Proof.
  cbv zeta. split; [apply splitext_app|].
  unfold OsPath.splitext.
  destruct (_ && _) eqn:Hcond; [|by left]. right. cbn [fst snd].
  apply andb_true_iff in Hcond as [Hlt Hany]. apply Z.ltb_lt in Hlt.
  pose proof (str_rfind_lower_bound "/" p) as Hsep.
  destruct (str_rfind_found "." p) as (a & b & Hp & Hb & Hdot); [lia|].
  rewrite Hdot in *. rewrite Nat2Z.id in *.
  assert (PyStr.has_char "/" (String "." b) = false) as Hy.
  { destruct (Z_lt_le_dec (str_rfind "/" p) 0) as [Hneg|Hpos].
    - apply str_rfind_neg in Hneg. rewrite Hp, has_char_app in Hneg.
      by apply orb_false_iff in Hneg as [_ Hneg].
    - destruct (str_rfind_found "/" p Hpos) as (a' & b' & Hp' & Hb' & Hs).
      rewrite Hs in Hlt.
      destruct (str_app_split a a' (String "." b) (String "/" b'))
        as (m & Ha & Hm); [congruence | lia |].
      destruct m as [|c m].
      { rewrite Ha, length_str_app in Hlt. simpl in Hlt. lia. }
      rewrite str_app_cons in Hm. injection Hm as <- ->.
      rewrite has_char_app in Hb'.
      by apply orb_false_iff in Hb' as [_ Hb']. }
  exists b. rewrite Hp at 1. rewrite str_drop_app_length.
  split_and!; try done.
  rewrite Hp at 1. rewrite str_take_app_length.
  unfold OsPath.basename.
  assert (str_rfind "/" a = str_rfind "/" p) as ->.
  { rewrite Hp. symmetry. by apply str_rfind_app_absent. }
  unfold PyStr.str_slice in Hany.
  set (n := Z.to_nat (str_rfind "/" p + 1)) in *.
  assert (n ≤ String.length a)%nat as Hn by (unfold n; lia).
  rewrite Hp in Hany. rewrite (str_drop_app_le _ _ _ Hn) in Hany.
  replace (String.length a - n)%nat
    with (String.length (str_drop n a)) in Hany
    by (rewrite length_str_drop; lia).
  by rewrite str_take_app_length in Hany.
Qed.

(** The scope tests compose: being under a base path is reflexive and
    transitive and implies being on the same site, the same-site test is
    symmetric and transitive, the seed is always in scope, and whatever is
    in scope with same-path-only set is in scope without it. *)
Theorem scope_tests_compose :
  (∀ a, is_under_base_path a a = true)
  ∧ (∀ a b c,
       is_under_base_path a b = true → is_under_base_path b c = true →
       is_under_base_path a c = true)
  ∧ (∀ a b, is_under_base_path a b = true → is_same_site a b = true)
  ∧ (∀ a b, is_same_site a b = is_same_site b a)
  ∧ (∀ a b c,
       is_same_site a b = true → is_same_site b c = true →
       is_same_site a c = true)
  ∧ (∀ cfg, in_scope cfg (start_url cfg) = true)
  ∧ (∀ start out depth dl u,
       in_scope (mkConfig start out depth dl true) u = true →
       in_scope (mkConfig start out depth dl false) u = true).
Proof.
  split_and!.
  - apply is_under_base_path_refl.
  - intros a b c. unfold is_under_base_path.
    rewrite !andb_true_iff, !String.eqb_eq, !startswith_spec.
    intros [Hab [r1 H1]] [Hbc [r2 H2]]. split; [congruence|].
    exists (r2 +:+ r1). by rewrite H1, H2, str_app_assoc.
  - intros a b. unfold is_under_base_path, is_same_site.
    by intros [? _]%andb_true_iff.
  - intros a b. unfold is_same_site. apply String.eqb_sym.
  - intros a b c. unfold is_same_site. rewrite !String.eqb_eq. congruence.
  - intros cfg. unfold in_scope.
    by rewrite is_same_site_refl, is_under_base_path_refl, orb_true_r.
  - intros start out depth dl u. unfold in_scope. simpl.
    by intros [-> _]%andb_true_iff.
Qed.

Lemma scope_tests_compose_witness :
  is_under_base_path "http://h/a/b/c" "http://h/a" = true
  ∧ is_same_site "http://h/a/b/c" "http://h/a" = true
  ∧ is_same_site "http://h/x" "http://h/z?q" = true
  ∧ in_scope (mkConfig "http://h/a" "out" 2 (1#2) false) "http://h/a/b" = true.
Proof.
  destruct scope_tests_compose as (_ & Htrans & Hsite & _ & Hst & _ & Hwide).
  split_and!.
  - apply (Htrans _ "http://h/a/b"); vm_compute; reflexivity.
  - apply Hsite. vm_compute. reflexivity.
  - apply (Hst _ "http://h/y#f"); vm_compute; reflexivity.
  - apply Hwide. vm_compute. reflexivity.
Defined.

(** What the crawl is allowed after robots.txt was answered with an HTTP
    error status: nothing after 401 or 403, everything after any other
    4xx status (a missing robots.txt), whatever the URL, as the parser
    tests its flags before it parses the URL; and no extra delay after
    any error status. *)
Theorem load_robots_by_status :
  (∀ code url,
     code = 401 ∨ code = 403 →
     allowed_by_robots (load_robots (HTTPError code)) url = false)
  ∧ (∀ code url,
       400 ≤ code < 500 → code ≠ 401 → code ≠ 403 →
       allowed_by_robots (load_robots (HTTPError code)) url = true)
  ∧ (∀ code, robots_crawl_delay (load_robots (HTTPError code)) = 0).
Proof.
  split_and!.
  - intros code url [-> | ->]; reflexivity.
  - intros code url Hrange H401 H403.
    unfold allowed_by_robots, load_robots, read, fresh.
    rewrite !bool_decide_eq_false_2 by done. simpl.
    replace (400 <=? code) with true by (symmetry; apply Z.leb_le; lia).
    replace (code <? 500) with true by (symmetry; apply Z.ltb_lt; lia).
    reflexivity.
  - intros code. unfold robots_crawl_delay, load_robots, read, fresh.
    destruct (bool_decide (code = 401) || bool_decide (code = 403));
      [reflexivity|].
    destruct ((400 <=? code) && (code <? 500)); reflexivity.
Qed.

Lemma load_robots_by_status_witness :
  allowed_by_robots (load_robots (HTTPError 403)) "http://h/a" = false
  ∧ allowed_by_robots (load_robots (HTTPError 404)) "http://%5Bbad/x.pdf"
    = true.
Proof.
  destruct load_robots_by_status as (H1 & H2 & _).
  split_and!.
  - apply H1. by right.
  - apply H2; lia.
Defined.

(** The preview of the summary lists the least ten of the documents
    found (all of them when they are fewer), in increasing order and
    without repetition. *)
Theorem preview_spec (found : gset string) :
  let pv := preview found in
  length pv = Nat.min 10 (size found)
  ∧ StronglySorted String.le pv
  ∧ NoDup pv
  ∧ (∀ u, u ∈ pv → u ∈ found)
  ∧ (∀ u v, u ∈ pv → v ∈ found → v ∉ pv → String.le u v).
Proof.
  cbv zeta. unfold preview.
  set (l := merge_sort String.le (elements found)).
  assert (l ≡ₚ elements found) as Hperm by apply merge_sort_Permutation.
  assert (StronglySorted String.le l) as Hsorted
    by (apply (StronglySorted_merge_sort String.le); apply _).
  assert (NoDup l) as Hnd by (rewrite Hperm; apply NoDup_elements).
  rewrite <- (take_drop 10 l) in Hsorted, Hnd.
  apply StronglySorted_app in Hsorted as (Hcross & Hs1 & _).
  apply NoDup_app in Hnd as (Hnd1 & _ & _).
  split_and!; try done.
  - rewrite length_take. f_equal. by rewrite Hperm.
  - intros u Hu. apply elem_of_elements. rewrite <- Hperm.
    rewrite <- (take_drop 10 l). apply elem_of_app. by left.
  - intros u v Hu Hv Hnot. apply Hcross; [done|].
    apply elem_of_elements in Hv. rewrite <- Hperm in Hv.
    rewrite <- (take_drop 10 l) in Hv.
    by apply elem_of_app in Hv as [Hv|Hv].
Qed.

Lemma preview_spec_witness :
  String.le "http://h/09.pdf" "http://h/10.pdf".
Proof.
  destruct (preview_spec
              (list_to_set
                 ["http://h/10.pdf"; "http://h/09.pdf"; "http://h/08.pdf";
                  "http://h/07.pdf"; "http://h/06.pdf"; "http://h/05.pdf";
                  "http://h/04.pdf"; "http://h/03.pdf"; "http://h/02.pdf";
                  "http://h/01.pdf"; "http://h/00.pdf"]))
    as (_ & _ & _ & _ & H).
  apply H; apply (bool_decide_unpack _); vm_compute; exact I.
Defined.

(** * Properties of link extraction *)

Section NoFragment.
Import PyStr UrlParse UrlJoin.

Lemma has_char_take_drop (c : ascii) (n : nat) (s : string) :
  has_char c s = false →
  has_char c (str_take n s) = false ∧ has_char c (str_drop n s) = false.
Proof.
  intros H. rewrite <- (str_take_drop n s), has_char_app in H.
  by apply orb_false_iff in H.
Qed.

Lemma has_char_take_le (c : ascii) (n m : nat) (s : string) :
  (n ≤ m)%nat → has_char c (str_take m s) = false →
  has_char c (str_take n s) = false.
Proof.
  unfold has_char. revert m s. induction n as [|n IH]; intros m s Hnm H.
  - by destruct s.
  - destruct m as [|m]; [lia|]. destruct s as [|d s]; [done|]. simpl in *.
    apply orb_false_iff in H as [-> H]. simpl. apply (IH m); [lia | done].
Qed.

(** Nothing before the first occurrence is [c]. *)
Lemma str_find_prefix (c : ascii) (s : string) :
  has_char c (str_take (Z.to_nat (str_find c s)) s) = false.
Proof.
  unfold has_char. induction s as [|d s IH]; [done|]. simpl.
  destruct (Ascii.eqb c d) eqn:E; [done|].
  destruct (str_find c s <? 0) eqn:Hneg.
  - done.
  - apply Z.ltb_ge in Hneg.
    replace (Z.to_nat (str_find c s + 1)) with (S (Z.to_nat (str_find c s)))
      by lia.
    simpl. by rewrite E.
Qed.

Lemma str_find_absent (c : ascii) (s : string) :
  str_find c s < 0 → has_char c s = false.
Proof.
  unfold has_char. induction s as [|d s IH]; [done|]. simpl.
  destruct (Ascii.eqb c d); [lia|].
  destruct (str_find c s <? 0) eqn:Hneg; [|apply Z.ltb_ge in Hneg; lia].
  apply Z.ltb_lt in Hneg. intros _. by apply IH.
Qed.

Lemma str_find_from_prefix (c : ascii) (start : nat) (s : string) (n : nat) :
  (if 0 <=? str_find_from c start s
   then Z.of_nat n ≤ str_find_from c start s else True) →
  has_char c (str_slice start n s) = false.
Proof.
  unfold str_find_from, str_slice.
  destruct (String.length s <? start)%nat eqn:Hlen.
  - intros _. apply Nat.ltb_lt in Hlen.
    assert (str_drop start s = "") as ->.
    { assert (String.length (str_drop start s) = 0%nat) as H0
        by (rewrite length_str_drop; lia).
      by destruct (str_drop start s). }
    by destruct (n - start)%nat.
  - destruct (str_find c (str_drop start s) <? 0) eqn:Hneg.
    + intros _. apply Z.ltb_lt in Hneg. apply str_find_absent in Hneg.
      by apply has_char_take_drop.
    + apply Z.ltb_ge in Hneg.
      replace (0 <=? str_find c (str_drop start s) + Z.of_nat start)
        with true by (symmetry; apply Z.leb_le; lia).
      intros Hn.
      apply (has_char_take_le _ _ (Z.to_nat (str_find c (str_drop start s))));
        [lia | apply str_find_prefix].
Qed.

Lemma min_delim_bounds (c : ascii) (start : nat) (url : string) (d : Z) :
  0 ≤ d →
  0 ≤ min_delim c start url d ≤ d
  ∧ (0 ≤ str_find_from c start url →
     min_delim c start url d ≤ str_find_from c start url).
Proof.
  intros Hd. unfold min_delim.
  destruct (0 <=? str_find_from c start url) eqn:E.
  - apply Z.leb_le in E. lia.
  - apply Z.leb_gt in E. lia.
Qed.

Lemma splitnetloc_no_hash (url : string) (start : nat) :
  has_char "#" (_splitnetloc url start).1 = false.
Proof.
  unfold _splitnetloc. cbn [fst]. apply str_find_from_prefix.
  destruct (0 <=? str_find_from "#" start url) eqn:E; [|done].
  apply Z.leb_le in E.
  pose proof (min_delim_bounds "/" start url (Z.of_nat (String.length url))
                ltac:(lia)) as [H1 _].
  pose proof (min_delim_bounds "?" start url _ (proj1 H1)) as [H2 _].
  pose proof (min_delim_bounds "#" start url _ (proj1 H2)) as [H3 H4].
  rewrite Z2Nat.id; [by apply H4 | apply H3].
Qed.

Lemma lower_keeps_hash (s : string) :
  has_char "#" (lower s) = has_char "#" s.
Proof.
  unfold has_char, lower. induction s as [|c s IH]; [done|]. simpl.
  rewrite IH. f_equal.
  destruct c as [[] [] [] [] [] [] [] []]; reflexivity.
Qed.

Lemma split_scheme_no_hash (url : string) :
  has_char "#" (split_scheme url).1 = false.
Proof.
  unfold split_scheme. destruct url as [|c0 url]; [done|].
  destruct (_ && _) eqn:E; [|done]. cbn [fst].
  apply andb_true_iff in E as [_ Hall].
  rewrite lower_keeps_hash. by apply (all_chars_no_char scheme_char).
Qed.

(** No component of a parsed URL other than the fragment holds a [#]. *)
Lemma urlparse_no_hash (url : string) :
  let r := urlparse url in
  has_char "#" (scheme r) = false ∧ has_char "#" (netloc r) = false
  ∧ has_char "#" (path r) = false ∧ has_char "#" (params r) = false
  ∧ has_char "#" (query r) = false.
Proof.
  cbv zeta. unfold urlparse, urlsplit.
  set (u2 := filter_chars _ _).
  pose proof (split_scheme_no_hash u2) as Hscheme.
  destruct (split_scheme u2) as [sch u3]. cbn [fst] in Hscheme.
  assert (∃ nl u4,
    (if String.eqb (str_take 2 u3) "//" then _splitnetloc u3 2 else ("", u3))
    = (nl, u4) ∧ has_char "#" nl = false) as (nl & u4 & -> & Hnl).
  { destruct (String.eqb (str_take 2 u3) "//").
    - pose proof (splitnetloc_no_hash u3 2) as H.
      destruct (_splitnetloc u3 2) as [nl u4]. by exists nl, u4.
    - by exists "", u3. }
  assert (∃ u5 fr,
    (if has_char "#" u4 then split_first "#" u4 else (u4, "")) = (u5, fr)
    ∧ has_char "#" u5 = false) as (u5 & fr & -> & Hu5).
  { destruct (has_char "#" u4) eqn:E.
    - unfold split_first. eexists _, _. split; [done|]. apply str_find_prefix.
    - by exists u4, "". }
  assert (∃ u6 q,
    (if has_char "?" u5 then split_first "?" u5 else (u5, "")) = (u6, q)
    ∧ has_char "#" u6 = false ∧ has_char "#" q = false)
    as (u6 & q & -> & Hu6 & Hq).
  { destruct (has_char "?" u5).
    - unfold split_first. eexists _, _. split; [done|].
      split; by apply has_char_take_drop.
    - by exists u5, "". }
  assert (∃ u7 pa,
    (if bool_decide (sch ∈ uses_params) && has_char ";" u6
     then _splitparams u6 else (u6, "")) = (u7, pa)
    ∧ has_char "#" u7 = false ∧ has_char "#" pa = false)
    as (u7 & pa & -> & Hu7 & Hpa).
  { destruct (_ && _).
    - unfold _splitparams. destruct (has_char "/" u6).
      + destruct (_ <? 0).
        * by exists u6, "".
        * eexists _, _. split; [done|]. split; by apply has_char_take_drop.
      + eexists _, _. split; [done|]. split; by apply has_char_take_drop.
    - by exists u6, "". }
  done.
Qed.

Lemma urldefrag_no_hash (url : string) :
  has_char "#" (urldefrag url) = false.
Proof.
  unfold urldefrag. destruct (has_char "#" url) eqn:E; [|done].
  destruct (urlparse_no_hash url) as (Hs & Hn & Hp & Ha & Hq).
  unfold urlunparse, urlunsplit. cbn [scheme netloc path params query fragment].
  repeat match goal with
         | |- context [if ?b then _ else _] => destruct b eqn:?
         end;
    try discriminate;
    rewrite ?has_char_app, ?Hs, ?Hn, ?Hp, ?Ha, ?Hq; reflexivity.
Qed.

End NoFragment.

Lemma normalize_link_no_hash (href base_url u : string) :
  normalize_link href base_url = Some u →
  PyStr.has_char "#" u = false
  ∧ u = urldefrag (urljoin base_url (strip re_space href)).
Proof.
  unfold normalize_link. intros Hu. destruct (String.eqb href ""); [done|].
  destruct (_ || _); [done|]. injection Hu as <-.
  split; [apply urldefrag_no_hash | done].
Qed.

(** [normalize_link] drops exactly the empty [href] and the ones that,
    with the surrounding whitespace removed, start with [mailto:], [tel:]
    or [javascript:] in lower case; every other [href] gives a URL in
    which no fragment mark [#] is left. *)
Theorem normalize_link_spec (href base_url : string) :
  (normalize_link href base_url = None
   ↔ href = ""
     ∨ startswith (strip re_space href) "mailto:" = true
     ∨ startswith (strip re_space href) "tel:" = true
     ∨ startswith (strip re_space href) "javascript:" = true)
  ∧ (∀ u, normalize_link href base_url = Some u →
          PyStr.has_char "#" u = false
          ∧ u = urldefrag (urljoin base_url (strip re_space href))).
Proof.
  unfold normalize_link. split.
  - destruct (String.eqb href "") eqn:E.
    + apply String.eqb_eq in E. split; [by left | done].
    + apply String.eqb_neq in E.
      destruct (startswith _ "mailto:"), (startswith _ "tel:"),
        (startswith _ "javascript:"); simpl; split; try done;
        try (intros _; by auto);
        intros [?|[?|[?|?]]]; done.
  - apply normalize_link_no_hash.
Qed.

Lemma normalize_link_spec_witness :
  PyStr.has_char "#" "http://site.example/ref/b.pdf" = false
  ∧ normalize_link " mailto:a@b" "http://site.example/ref/" = None.
Proof.
  destruct (normalize_link_spec "../ref/./b.pdf#page=2"
              "http://site.example/ref/page2") as [_ H].
  destruct (normalize_link_spec " mailto:a@b" "http://site.example/ref/")
    as [[_ H'] _].
  split.
  - apply (H "http://site.example/ref/b.pdf"). vm_compute. reflexivity.
  - apply H'. right. left. vm_compute. reflexivity.
Defined.

Lemma extract_links_fold (base_url : string) (hrefs : list string)
    (acc : gset string) (u : string) :
  u ∈ fold_left
        (λ links href,
           match normalize_link href base_url with
           | Some u => if String.eqb u "" then links else {[u]} ∪ links
           | None => links
           end) hrefs acc
  ↔ u ∈ acc
    ∨ (u ≠ "" ∧ ∃ href, href ∈ hrefs ∧ normalize_link href base_url = Some u).
Proof.
  revert acc. induction hrefs as [|h hrefs IH]; intros acc; simpl.
  - split; [by left|]. intros [?|(_ & h & Hh & _)]; [done|].
    by apply elem_of_nil in Hh.
  - rewrite IH. clear IH.
    destruct (normalize_link h base_url) as [v|] eqn:Hv.
    + destruct (String.eqb v "") eqn:Hempty.
      * apply String.eqb_eq in Hempty as ->. split.
        -- intros [?|(Hne & h' & Hh' & Hn)]; [by left|].
           right. split; [done|]. exists h'. split; [|done].
           by apply list_elem_of_further.
        -- intros [?|(Hne & h' & Hh' & Hn)]; [by left|].
           apply elem_of_cons in Hh' as [->|Hh']; [congruence|].
           right. split; [done|]. by exists h'.
      * apply String.eqb_neq in Hempty.
        rewrite elem_of_union, elem_of_singleton. split.
        -- intros [[->|?]|(Hne & h' & Hh' & Hn)].
           ++ right. split; [done|]. exists h. split; [|done].
              apply list_elem_of_here.
           ++ by left.
           ++ right. split; [done|]. exists h'. split; [|done].
              by apply list_elem_of_further.
        -- intros [?|(Hne & h' & Hh' & Hn)]; [left; by right|].
           apply elem_of_cons in Hh' as [->|Hh'].
           ++ left. left. congruence.
           ++ right. split; [done|]. by exists h'.
    + split.
      * intros [?|(Hne & h' & Hh' & Hn)]; [by left|].
        right. split; [done|]. exists h'. split; [|done].
        by apply list_elem_of_further.
      * intros [?|(Hne & h' & Hh' & Hn)]; [by left|].
        apply elem_of_cons in Hh' as [->|Hh']; [congruence|].
        right. split; [done|]. by exists h'.
Qed.

(** The links extracted from a page are exactly the non-empty results
    of [normalize_link] on the anchors' [href] values; none of them holds
    a fragment mark, so two anchors that differ in the fragment only give
    one link. *)
Theorem extract_links_spec (hrefs : list string) (base_url u : string) :
  (u ∈ extract_links hrefs base_url
   ↔ u ≠ "" ∧ ∃ href, href ∈ hrefs ∧ normalize_link href base_url = Some u)
  ∧ (u ∈ extract_links hrefs base_url → PyStr.has_char "#" u = false).
Proof.
  assert (u ∈ extract_links hrefs base_url
          ↔ u ≠ "" ∧ ∃ href, href ∈ hrefs
                             ∧ normalize_link href base_url = Some u) as H.
  { unfold extract_links. rewrite extract_links_fold. split.
    - intros [Hin|?]; [|done]. by apply not_elem_of_empty in Hin.
    - by right. }
  split; [done|]. intros (_ & href & _ & Hn)%H.
  by apply normalize_link_no_hash in Hn as [? _].
Qed.

Lemma extract_links_spec_witness :
  extract_links ["a.pdf#p1"; "a.pdf#p2"; "tel:1"; ""]
    "http://site.example/ref/"
  = {["http://site.example/ref/a.pdf"]}
  ∧ PyStr.has_char "#" "http://site.example/ref/a.pdf" = false.
Proof.
  split; [vm_compute; reflexivity|].
  apply (extract_links_spec ["a.pdf#p1"; "a.pdf#p2"; "tel:1"; ""]
           "http://site.example/ref/" "http://site.example/ref/a.pdf").
  apply (bool_decide_unpack _). vm_compute. exact I.
Defined.

(** * Properties of the two scripts around the crawler *)

Section UploadFacts.
Import Upload.

Variable client : Client.

Lemma calls_for_cons (store_id p id : string) (files ids : list string) :
  calls_for store_id (p :: files) (id :: ids)
  = UploadFile p :: AttachFile store_id id :: calls_for store_id files ids.
Proof. reflexivity. Qed.

(** A loop that ran to its end: the ids it added are, file by file, the
    ones the client answered to the upload, and each was attached. *)
Lemma upload_loop_done (store_id : string) (files : list string) :
  ∀ tr ids tr' ids',
    upload_files_and_attach client store_id files tr ids = (tr', Some ids') →
    ∃ new, ids' = ids ++ new ∧ length new = length files
           ∧ rev tr' = rev tr ++ calls_for store_id files new
           ∧ ∀ i p id,
               files !! i = Some p → new !! i = Some id →
               let before :=
                 rev (calls_for store_id (take i files) (take i new)) ++ tr in
               upload client before p = Some id
               ∧ attach client (UploadFile p :: before) store_id id = true.
Proof.
  induction files as [|p files IH]; intros tr ids tr' ids' H; simpl in H.
  - injection H as <- <-. exists []. rewrite !app_nil_r.
    split_and!; done.
  - destruct (upload client tr p) as [id|] eqn:Hup; [|done].
    destruct (attach client _ store_id id) eqn:Hat; [|done].
    apply IH in H as (new & -> & Hlen & Htr & Heach).
    exists (id :: new). rewrite <- app_assoc. split; [done|].
    split; [simpl; lia|].
    split; [rewrite Htr; simpl; by rewrite <- !app_assoc|].
    intros [|i] q qid Hq Hqid.
    + injection Hq as <-. injection Hqid as <-. by split.
    + specialize (Heach i q qid Hq Hqid). cbn [take].
      rewrite calls_for_cons. cbn [rev]. rewrite <- !app_assoc.
      exact Heach.
Qed.

Lemma upload_loop_no_write (store_id : string) (files : list string) :
  ∀ tr ids tr' r name content,
    upload_files_and_attach client store_id files tr ids = (tr', r) →
    WriteFile name content ∈ tr' → WriteFile name content ∈ tr.
Proof.
  induction files as [|p files IH]; intros tr ids tr' r name content H Hin;
    simpl in H.
  - by injection H as <- <-.
  - destruct (upload client tr p) as [id|].
    + destruct (attach client _ store_id id).
      * apply (IH _ _ _ _ _ _ H) in Hin.
        apply elem_of_cons in Hin as [?|Hin]; [done|].
        by apply elem_of_cons in Hin as [?|Hin].
      * injection H as <- <-.
        apply elem_of_cons in Hin as [?|Hin]; [done|].
        by apply elem_of_cons in Hin as [?|Hin].
    + injection H as <- <-. by apply elem_of_cons in Hin as [?|Hin].
Qed.

End UploadFacts.

(** [upload_files.py]: when the policy directory is missing, is no
    directory or holds no regular file, [main] calls the client not once.
    When [main] ends without failure, it created one store under the
    fixed name and keeps the id the client answered; it uploaded every
    regular file of the directory and attached it to that store under the
    id the client answered to that upload, file by file in the order of
    the listing; and then it saved the id of the store. When it fails, the
    store id is not saved. *)
Theorem upload_main_spec (client : Upload.Client) (dir : Upload.dir_state) :
  (∀ e, Upload.get_existing_policy_files dir = inr e →
        Upload.main client dir = ([], Some e))
  ∧ (∀ tr, Upload.main client dir = (tr, None) →
       ∃ files ids store_id,
         Upload.get_existing_policy_files dir = inl files
         ∧ files ≠ []
         ∧ (∃ entries,
              dir = Upload.Directory entries
              ∧ files = (filter (λ e : string * bool, e.2 = true) entries).*1)
         ∧ Upload.create_store client [] Upload.STORE_NAME = Some store_id
         ∧ length ids = length files
         ∧ rev tr
           = Upload.CreateStore Upload.STORE_NAME
             :: Upload.calls_for store_id files ids
             ++ [Upload.WriteFile Upload.STORE_ID_FILE store_id]
         ∧ ∀ i p id,
             files !! i = Some p → ids !! i = Some id →
             let before :=
               rev (Upload.calls_for store_id (take i files) (take i ids))
               ++ [Upload.CreateStore Upload.STORE_NAME] in
             Upload.upload client before p = Some id
             ∧ Upload.attach client (Upload.UploadFile p :: before)
                 store_id id = true)
  ∧ (∀ tr e name content,
       Upload.main client dir = (tr, Some e) →
       Upload.WriteFile name content ∉ tr).
Proof.
  unfold Upload.main. split_and!.
  - by intros e ->.
  - intros tr H.
    destruct (Upload.get_existing_policy_files dir) as [files|e] eqn:Hfiles;
      [|done].
    destruct (Upload.create_store client [] Upload.STORE_NAME)
      as [store_id|]; [|done].
    destruct (Upload.upload_files_and_attach _ _ _ _ _) as [tr' [ids|]] eqn:Hloop;
      [|done].
    injection H as <-.
    apply upload_loop_done in Hloop as (new & -> & Hlen & Htr & Heach).
    exists files, new, store_id. split_and!; try done.
    + unfold Upload.get_existing_policy_files in Hfiles.
      destruct dir as [| |entries]; try done.
      destruct (fst <$> _); [done|]. by injection Hfiles as <-.
    + unfold Upload.get_existing_policy_files in Hfiles.
      destruct dir as [| |entries]; try done.
      exists entries. split; [done|].
      destruct (fst <$> _) eqn:E; [done|]. by injection Hfiles as <-.
    + simpl. rewrite Htr. done.
  - intros tr e name content H Hin.
    destruct (Upload.get_existing_policy_files dir) as [files|e'].
    + destruct (Upload.create_store client [] Upload.STORE_NAME)
        as [store_id|].
      * destruct (Upload.upload_files_and_attach _ _ _ _ _)
          as [tr' [ids|]] eqn:Hloop; [done|].
        injection H as <- <-.
        apply (upload_loop_no_write _ _ _ _ _ _ _ _ _ Hloop) in Hin.
        by apply elem_of_cons in Hin as [?|Hin%elem_of_nil].
      * injection H as <- <-.
        by apply elem_of_cons in Hin as [?|Hin%elem_of_nil].
    + injection H as <- <-. by apply elem_of_nil in Hin.
Qed.

(** A client whose answers depend on the calls made before: the id of an
    upload numbers the calls so far. *)
Lemma upload_main_spec_witness :
  (let client :=
     Upload.mkClient (λ _ _, Some "vs_1")
       (λ tr p, Some (p +:+ "#" +:+ pretty (length tr)))
       (λ _ _ _, true) in
   let dir :=
     Upload.Directory [("a.pdf", true); ("sub", false); ("b.pdf", true)] in
   ∃ files ids store_id,
     Upload.get_existing_policy_files dir = inl files
     ∧ files = ["a.pdf"; "b.pdf"]
     ∧ Upload.create_store client [] Upload.STORE_NAME = Some store_id
     ∧ length ids = length files
     ∧ ∀ i p id,
         files !! i = Some p → ids !! i = Some id →
         let before :=
           rev (Upload.calls_for store_id (take i files) (take i ids))
           ++ [Upload.CreateStore Upload.STORE_NAME] in
         Upload.upload client before p = Some id
         ∧ Upload.attach client (Upload.UploadFile p :: before)
             store_id id = true)
  ∧ Upload.main (Upload.mkClient (λ _ _, Some "vs_1") (λ _ _, None)
                   (λ _ _ _, true))
      (Upload.Directory [("sub", false)])
    = ([], Some Upload.NoPolicyFiles)
  ∧ (Upload.WriteFile "store_id.txt" "vs_1"
     ∉ (Upload.main (Upload.mkClient (λ _ _, Some "vs_1") (λ _ _, None)
                       (λ _ _ _, true))
          (Upload.Directory [("a.pdf", true)])).1).
Proof.
  split_and!.
  - intros client dir.
    destruct (upload_main_spec client dir) as (_ & H & _).
    destruct (H (Upload.main client dir).1) as
      (files & ids & store_id & Hfiles & _ & _ & Hstore & Hlen & _ & Heach).
    { vm_compute. reflexivity. }
    exists files, ids, store_id. split_and!; try done.
    vm_compute in Hfiles. by injection Hfiles as <-.
  - destruct (upload_main_spec
                (Upload.mkClient (λ _ _, Some "vs_1") (λ _ _, None)
                   (λ _ _ _, true))
                (Upload.Directory [("sub", false)])) as [H _].
    by apply H.
  - destruct (upload_main_spec
                (Upload.mkClient (λ _ _, Some "vs_1") (λ _ _, None)
                   (λ _ _ _, true))
                (Upload.Directory [("a.pdf", true)])) as (_ & _ & H).
    apply (H _ Upload.ClientError). vm_compute. reflexivity.
Defined.

Section AskFacts.
Import Ask.

Lemma scan_blocks_last (content : list Block) (acc : option string) :
  fold_left scan_block content acc
  = match last (block_text
                  <$> filter (λ b, block_type b = "output_text") content) with
    | Some text => Some text
    | None => acc
    end.
Proof.
  revert acc. induction content as [|b content IH]; intros acc; [done|].
  simpl. rewrite IH. unfold scan_block. rewrite filter_cons.
  destruct (String.eqb (block_type b) "output_text") eqn:E.
  - apply String.eqb_eq in E. rewrite decide_True by done.
    rewrite fmap_cons, last_cons. by destruct (last _).
  - apply String.eqb_neq in E. by rewrite decide_False by done.
Qed.

Lemma final_text_last (output : list (list Block)) (acc : option string) :
  fold_left (λ final content, fold_left scan_block content final) output acc
  = match last (block_text
                  <$> filter (λ b, block_type b = "output_text")
                        (mjoin output)) with
    | Some text => Some text
    | None => acc
    end.
Proof.
  revert acc. induction output as [|content output IH]; intros acc; [done|].
  simpl. rewrite IH, scan_blocks_last, filter_app, fmap_app, last_app.
  by destruct (last (block_text <$> filter _ (mjoin output))).
Qed.

End AskFacts.

(** [ask_questions.py]: the text kept for the answer is that of the last
    block of type [output_text] in the whole output, whatever came before
    it; the placeholder is printed when there is no such block or when
    that last text is empty. *)
Theorem answer_is_last_output_text (output : list (list Ask.Block)) :
  let texts :=
    Ask.block_text
      <$> filter (λ b, Ask.block_type b = "output_text") (mjoin output) in
  Ask.final_text output = last texts
  ∧ Ask.answer output
    = match last texts with
      | Some text => if String.eqb text "" then Ask.NO_ANSWER else text
      | None => Ask.NO_ANSWER
      end.
Proof.
  cbv zeta.
  assert (Ask.final_text output
          = last (Ask.block_text
                    <$> filter (λ b, Ask.block_type b = "output_text")
                          (mjoin output))) as H.
  { unfold Ask.final_text. rewrite final_text_last. by destruct (last _). }
  split; [done|]. unfold Ask.answer. by rewrite H.
Qed.

(** * Where the requested URLs come from *)

Section ProvenanceFacts.

Variable W : World.
Variable rp : RobotFileParser.
Variable cfg : Config.

Lemma linked_mono (st st' : State) (u : string) :
  (∀ p, p ∈ pages_fetched (trace st) → p ∈ pages_fetched (trace st')) →
  linked_from_fetched W st u → linked_from_fetched W st' u.
Proof.
  intros Hsub (page & tr & links & Hl & Hu & Hp).
  exists page, tr, links. split_and!; try done. by apply Hsub.
Qed.

(** A state with the same frontier and requests, and at least the same
    pages fetched, keeps the invariant. *)
Lemma provenance_inv_ext (st st' : State) :
  queued st' = queued st →
  dequeued (trace st') = dequeued (trace st) →
  probed (trace st') = probed (trace st) →
  files_fetched (trace st') = files_fetched (trace st) →
  (∀ p, p ∈ pages_fetched (trace st) → p ∈ pages_fetched (trace st')) →
  provenance_inv W cfg st → provenance_inv W cfg st'.
Proof.
  intros Hq Hd Hp Hf Hsub [H1 H2 H3 H4].
  constructor; rewrite ?Hq, ?Hd, ?Hp, ?Hf.
  - eapply Forall_impl; [exact H1|]. intros e [?|?]; [by left|right].
    by apply (linked_mono st).
  - eapply Forall_impl; [exact H2|]. intros e [?|?]; [by left|right].
    by apply (linked_mono st).
  - eapply Forall_impl; [exact H3|]. intros e ?. by apply (linked_mono st).
  - eapply Forall_impl; [exact H4|]. intros e ?. by apply (linked_mono st).
Qed.

Lemma outcome_provenance (d : Z) (s s' : State) (l : string) :
  linked_from_fetched W s l →
  provenance_inv W cfg s →
  link_outcome rp cfg d s l s' →
  provenance_inv W cfg s'
  ∧ pages_fetched (trace s') = pages_fetched (trace s).
Proof.
  intros Hl Hinv Hout.
  assert (∀ s1 u, pages_fetched (trace s1) = pages_fetched (trace s) →
                  linked_from_fetched W s u → linked_from_fetched W s1 u)
    as Hkeep.
  { intros s1 u E. apply linked_mono. intros p. by rewrite E. }
  assert (∀ s1, pages_fetched (trace s1) = pages_fetched (trace s) →
    provenance_inv W cfg s →
    Forall (λ e : string * Z,
              e = (start_url cfg, 0) ∨ linked_from_fetched W s1 e.1)
           (queued s)
    ∧ Forall (λ u, u = start_url cfg ∨ linked_from_fetched W s1 u)
             (dequeued (trace s))
    ∧ Forall (linked_from_fetched W s1) (probed (trace s))
    ∧ Forall (linked_from_fetched W s1) (files_fetched (trace s))) as Hall.
  { intros s1 E [H1 H2 H3 H4]. split_and!.
    - eapply Forall_impl; [exact H1|]. intros e [?|?]; [by left|right].
      by apply Hkeep.
    - eapply Forall_impl; [exact H2|]. intros e [?|?]; [by left|right].
      by apply Hkeep.
    - eapply Forall_impl; [exact H3|]. intros e ?. by apply Hkeep.
    - eapply Forall_impl; [exact H4|]. intros e ?. by apply Hkeep. }
  destruct Hout as [|Hext|Hext _ _ _|st0 t Hbase _ _ _|st0 fs' Hbase _ _ _];
    try (destruct Hbase as [->|[Hext ->]]);
    (split; [|done]);
    match goal with
    | |- provenance_inv _ _ ?s1 =>
        destruct (Hall s1 eq_refl Hinv) as (H1 & H2 & H3 & H4);
        pose proof (Hkeep s1 l eq_refl Hl) as Hl1
    end;
    constructor; simpl; try done;
    try (by apply Forall_cons);
    try (apply Forall_app; split; [done|];
         apply Forall_cons; split; [by right | apply Forall_nil_2]).
Qed.

Lemma visit_links_provenance (url : string) (tr0 : list event)
    (links : list string) (depth : Z) :
  page_links W tr0 url = Some links →
  ∀ (ls : list string) (s1 : State),
    (∀ l, l ∈ ls → l ∈ links) →
    provenance_inv W cfg s1 →
    url ∈ pages_fetched (trace s1) →
    provenance_inv W cfg (visit_links W rp cfg depth s1 ls).
Proof.
  intros Hlinks ls. induction ls as [|l ls IH]; intros s1 Hsub Hs1 Hp1;
    [done|].
  simpl. destruct (outcome_provenance depth s1
                     (visit_link W rp cfg depth s1 l) l) as [H1 H2];
    [|done|apply visit_link_outcome|].
  - exists url, tr0, links. split_and!; try done.
    apply Hsub. apply list_elem_of_here.
  - apply IH; [|done|by rewrite H2].
    intros l' Hl'. apply Hsub. by apply list_elem_of_further.
Qed.

Lemma reachable_provenance_inv (fs : gset string) (n : nat) :
  provenance_inv W cfg (iterate W rp cfg n (init cfg fs)).
Proof.
  apply iterate_invariant.
  - intros st Hinv. destruct (queued st) as [|[url depth] rest] eqn:Hq.
    { by rewrite step_nil. }
    assert (provenance_inv W cfg
              (log (Dequeue url depth) (set_queued rest st))) as Hpop.
    { destruct Hinv as [H1 H2 H3 H4]. rewrite Hq in H1.
      apply Forall_cons in H1 as [Hhead H1].
      constructor; simpl; try done. apply Forall_cons. split; [|done].
      destruct Hhead as [E|?]; [left; by injection E | by right]. }
    destruct (step_cases W rp cfg st url depth rest Hq)
      as [[_ ->]|[(_ & _ & ->)|(_ & _ & _ & ->)]]; [done| |].
    + by apply (provenance_inv_ext
                  (log (Dequeue url depth) (set_queued rest st))).
    + unfold visit_page.
      set (st0 := add_seen url (log (Dequeue url depth) (set_queued rest st))).
      destruct (page_links W (trace st0) url) as [links|] eqn:Hlinks.
      * set (st1 := log (Sleep (enforced_delay rp cfg)) (log (GetPage url) st0)).
        assert (provenance_inv W cfg st1
                ∧ pages_fetched (trace st1)
                  = url :: pages_fetched (trace st)) as Hst1.
        { split; [|done].
          apply (provenance_inv_ext
                   (log (Dequeue url depth) (set_queued rest st)));
            try done.
          intros p Hp. simpl. by apply list_elem_of_further. }
        destruct Hst1 as [Hs1 Hp1].
        apply (visit_links_provenance url (trace st0) links); try done.
        rewrite Hp1. apply list_elem_of_here.
      * apply (provenance_inv_ext
                 (log (Dequeue url depth) (set_queued rest st))); try done.
        intros p Hp. simpl. by apply list_elem_of_further.
  - constructor; simpl; try apply Forall_nil_2.
    apply Forall_cons. split; [by left | apply Forall_nil_2].
Qed.

End ProvenanceFacts.

(** The crawl requests no URL of its own making: every page it takes
    off the frontier is the seed or a link of a page it fetched before,
    and every URL it probes or downloads is a link of a page it fetched
    before. *)
Theorem requests_come_from_fetched_pages
    (W : World) (rp : RobotFileParser) (cfg : Config)
    (fs : gset string) (n : nat) :
  let st := iterate W rp cfg n (init cfg fs) in
  Forall (λ u, u = start_url cfg ∨ linked_from_fetched W st u)
         (dequeued (trace st))
  ∧ Forall (linked_from_fetched W st) (probed (trace st))
  ∧ Forall (linked_from_fetched W st) (files_fetched (trace st)).
Proof.
  cbv zeta. by destruct (reachable_provenance_inv W rp cfg fs n).
Qed.

(** With no default scheme, [urlparse_scheme] is [urlparse]. *)
Lemma urlparse_scheme_default (url : string) :
  urlparse_scheme "" url = urlparse url.
Proof.
  unfold urlparse_scheme, urlparse, urlsplit.
  change (PyStr.filter_chars (λ c, negb (unsafe_url_byte c))
            (strip c0_control_or_space "")) with "".
  destruct (split_scheme _) as [found rest].
  assert ((if String.eqb found "" then "" else found) = found) as ->.
  { destruct (String.eqb found "") eqn:E; [|done].
    by apply String.eqb_eq in E. }
  repeat match goal with
         | |- context [let '(_, _) := ?x in _] => destruct x
         end.
  done.
Qed.
